(** * Chicago crime visualisation: the data-processing core of [script.js]

    A shallow embedding of the processing methods of the class
    [ChicagoCrimeVisualizer] ([processData], [processCrimeCounts],
    [calculateCentroids], [calculateKNN]) together with the properties the
    specification states about them.

    Conventions of the embedding.
    - A JavaScript number is an IEEE 754 binary64 value: Rocq's primitive
      [float].  [Math.pow(x, 2)] is taken to be the correctly rounded square
      [x * x].
    - A property value read from GeoJSON is a [jsval]: a string, a boolean,
      [null], or [undefined] when the property is absent; [truthy] is the
      conversion the conditions [a && b] and [filter] apply, [toKey] the
      conversion to a property key.
    - The object [crimeCounts], created by [{}] and used as a dictionary, is
      the finite map of its own properties, [gmap string nat], under the
      prototype [Object.prototype]: an assignment to the key [__proto__]
      reaches the inherited setter, a read of a key without own property
      reaches the inherited members, and the call
      [crimeCounts.hasOwnProperty(...)] reaches an own property of that name
      when there is one ([js_set], [js_get], [hasOwnProperty]).
    - Centroid objects are created once by [calculateCentroids] and compared
      with [===] in [calculateKNN]; the identity of a centroid is its position
      in the array [this.data.centroids], so a link stores two positions.
    - [Array.prototype.sort] is a stable sort (ECMAScript 2019); it is modelled
      as a stable insertion sort driven by the sign of the comparator's result,
      a [NaN] result counting as zero.  The order of the result is fixed by
      the language for a consistent comparator only, which [by_dist] is when
      no distance is [NaN]; the properties of the sorted array are stated
      under that condition. *)

From Stdlib Require Import Floats ZArith Lia.
From stdpp Require Import gmap strings list fin_maps sorting pretty.

Local Open Scope nat_scope.

(** ** JavaScript values found in a GeoJSON [properties] object *)

Inductive jsval : Type :=
  | JUndefined
  | JNull
  | JBool (b : bool)
  | JStr (s : string).

(** ToBoolean. *)
Definition truthy (v : jsval) : bool :=
  match v with
  | JUndefined | JNull => false
  | JBool b => b
  | JStr s => negb (String.eqb s "")
  end.

(** ToPropertyKey, for [obj[v]] and [obj.hasOwnProperty(v)]. *)
Definition toKey (v : jsval) : string :=
  match v with
  | JUndefined => "undefined"
  | JNull => "null"
  | JBool true => "true"
  | JBool false => "false"
  | JStr s => s
  end.

(** The global function [isNaN] on a number. *)
Definition isNaN (x : float) : bool := PrimFloat.is_nan x.

(** A GeoJSON position and the coordinate arrays of a geometry. *)
Definition Position : Type := float * float.
Definition Geometry : Type := list (list (list Position)).

(** A GeoJSON feature: [PRI_NEIGH] is [properties[CONFIG.fields.neighborhoodName]]. *)
Record Feature : Type := mkFeature {
  PRI_NEIGH : jsval;
  geometry : Geometry
}.

(** ** The order of binary64 values

    The operations of [float] are specified on [spec_float], the value
    [Prim2SF] gives.  The values that are no [NaN] are ranked by triples of
    integers whose lexicographic order is the order of the values. *)

Section FloatOrder.
Local Open Scope Z_scope.

(** The rank of a value that is no [NaN]: the sign class, then the exponent
    and the mantissa, negated for the negative values. *)
Definition float_rank (x : spec_float) : Z * Z * Z :=
  match x with
  | S754_infinity true => (-2, 0, 0)
  | S754_finite true m e => (-1, - e, Zneg m)
  | S754_zero _ | S754_nan => (0, 0, 0)
  | S754_finite false m e => (1, e, Zpos m)
  | S754_infinity false => (2, 0, 0)
  end.

(** The lexicographic order of the ranks. *)
Definition rank_compare (a b : Z * Z * Z) : comparison :=
  match Z.compare a.1.1 b.1.1 with
  | Eq => match Z.compare a.1.2 b.1.2 with
          | Eq => Z.compare a.2 b.2
          | c => c
          end
  | c => c
  end.

(** The values with the sign [s], and those of them that are not zero. *)
Inductive signed_as (s : bool) : spec_float → Prop :=
  | signed_zero : signed_as s (S754_zero s)
  | signed_finite m e : signed_as s (S754_finite s m e)
  | signed_infinity : signed_as s (S754_infinity s).

Inductive nonzero_as (s : bool) : spec_float → Prop :=
  | nonzero_finite m e : nonzero_as s (S754_finite s m e)
  | nonzero_infinity : nonzero_as s (S754_infinity s).

(** The mantissa of [m * 2^e], with its sign, at the exponent [e']. *)
Definition aligned (s : bool) (m : positive) (e e' : Z) : Z :=
  cond_Zopp s (Zpos (shl_align m e e').1).

(** The values that are at least zero. *)
Definition SFnn (a : spec_float) : Prop :=
  match a with
  | S754_zero _ | S754_finite false _ _ | S754_infinity false => True
  | _ => False
  end.

(** The values that compare less than nothing: positive infinity and
    [NaN]. *)
Definition SFinf_or_nan (a : spec_float) : Prop :=
  match a with
  | S754_infinity false | S754_nan => True
  | _ => False
  end.

(** The infinities and [NaN]. *)
Definition SFany_inf_or_nan (a : spec_float) : Prop :=
  match a with
  | S754_infinity _ | S754_nan => True
  | _ => False
  end.

End FloatOrder.

(** ** [Array.prototype.sort] with a comparator *)

Section Sort.
Context {A : Type} (comparefn : A → A → float).

(** [comparefn(x, y) > 0]; false when the result is [NaN]. *)
Definition sort_gt (x y : A) : bool := (0 <? comparefn x y)%float.

(** [x], which stood before the values of the sorted list [l], goes behind
    the values it is greater than. *)
Fixpoint sort_insert (x : A) (l : list A) : list A :=
  match l with
  | [] => [x]
  | y :: l' => if sort_gt x y then y :: sort_insert x l' else x :: y :: l'
  end.

(** [l.sort(comparefn)].  For a comparator that is consistent on [l]
    ([asymmetric_on], [transitive_on]) this is the array the language
    prescribes: sorted, and stable.  For any other comparator the language
    leaves the order to the engine, and the model gives one possible
    result. *)
Definition js_sort (l : list A) : list A := foldr sort_insert [] l.

(** The comparator is consistent on the values of [l]: [x > y] excludes
    [y > x], and "not greater" is transitive. *)
Definition asymmetric_on (l : list A) : Prop :=
  ∀ a b, a ∈ l → b ∈ l → sort_gt a b = true → sort_gt b a = false.

Definition transitive_on (l : list A) : Prop :=
  ∀ a b c, a ∈ l → b ∈ l → c ∈ l →
    sort_gt a b = false → sort_gt b c = false → sort_gt a c = false.

(** [a] may stand before [b] in the sorted array: [a] is not greater, and
    when they compare equal [a] has the smaller key. *)
Definition stands_before (key : A → nat) (a b : A) : Prop :=
  sort_gt a b = false ∧ (sort_gt b a = false → key a < key b).
End Sort.

(** ** Centroids and the nearest-neighbour graph *)

Record Centroid : Type := mkCentroid {
  name : jsval;
  coords : Position;
  feature : Feature
}.

(** An element of the array [distances]. *)
Record Entry : Type := mkEntry {
  index : nat;
  dist : float
}.

(** An element of [knnLinks]; [source] and [target] are positions in
    [this.data.centroids]. *)
Record Link : Type := mkLink {
  source : nat;
  target : nat
}.

Definition distance (p1 p2 : Position) : float :=
  PrimFloat.sqrt ((p1.1 - p2.1) * (p1.1 - p2.1) + (p1.2 - p2.2) * (p1.2 - p2.2))%float.

(** The comparator [(a, b) => a.dist - b.dist]. *)
Definition by_dist (a b : Entry) : float := (dist a - dist b)%float.

(** The distances of the entries of [l] can be compared: none is [NaN], or
    each is [Infinity] or [NaN], so none is less than another. *)
Definition comparable_dists (l : list Entry) : Prop :=
  (∀ e, e ∈ l → PrimFloat.is_nan (dist e) = false) ∨
  (∀ e, e ∈ l → SFinf_or_nan (Prim2SF (dist e))).

(** The array built by [this.data.centroids.map((center2, j) => ...)] for the
    centroid [center1] at position [i]. *)
Definition candidates (centroids : list Centroid) (i : nat) (center1 : Centroid)
    : list Entry :=
  imap (λ j center2,
    {| index := j;
       dist := if Nat.eqb i j then infinity
               else distance (coords center1) (coords center2) |}) centroids.

Definition distances (centroids : list Centroid) (i : nat) (center1 : Centroid)
    : list Entry :=
  js_sort by_dist (candidates centroids i center1).

(** [knnLinks.some(link => ...)] for the pair [center1], [neighbor]. *)
Definition link_exists (knnLinks : list Link) (center1 neighbor : nat) : bool :=
  existsb (λ link,
    (Nat.eqb (source link) center1 && Nat.eqb (target link) neighbor) ||
    (Nat.eqb (source link) neighbor && Nat.eqb (target link) center1)) knnLinks.

(** One turn of the loop [for (let k = 0; ...)]. *)
Definition push_link (center1 : nat) (knnLinks : list Link) (e : Entry) : list Link :=
  let neighbor := index e in
  if link_exists knnLinks center1 neighbor then knnLinks
  else knnLinks ++ [{| source := center1; target := neighbor |}].

(** The entries visited by the loop [for (let k = 0; k < K && k <
    distances.length; k++)]: the first [K] elements of [distances], all of
    them when there are fewer. *)
Definition selected (K : nat) (centroids : list Centroid) (i : nat)
    (center1 : Centroid) : list Entry :=
  take K (distances centroids i center1).

(** [calculateKNN], from the links [knnLinks] already stored. *)
Definition calculateKNN_from (K : nat) (centroids : list Centroid)
    (knnLinks : list Link) : list Link :=
  foldl (λ links '(i, center1),
           foldl (push_link i) links (selected K centroids i center1))
        knnLinks (imap pair centroids).

(** [calculateKNN] as [processData] calls it: [knnLinks] is the empty array
    set by the constructor. *)
Definition calculateKNN (K : nat) (centroids : list Centroid) : list Link :=
  calculateKNN_from K centroids [].

(** The neighbour set of the specification (section 4.5, steps 1 to 3), for
    comparison with [selected]: the distances from [center1] to every other
    centroid, sorted, and the first [K] of them. *)
Definition other_candidates (centroids : list Centroid) (i : nat)
    (center1 : Centroid) : list Entry :=
  List.filter (λ e, negb (Nat.eqb (index e) i))
    (imap (λ j center2,
       {| index := j; dist := distance (coords center1) (coords center2) |})
       centroids).

Definition k_nearest_others (K : nat) (centroids : list Centroid) (i : nat)
    (center1 : Centroid) : list Entry :=
  take K (js_sort by_dist (other_candidates centroids i center1)).

(** Every other centroid is nearer than the centroid's own entry:
    [Infinity - e.dist] is positive for each of them, as it is for a finite
    distance. *)
Definition others_nearer (centroids : list Centroid) (i : nat)
    (center1 : Centroid) : bool :=
  forallb (λ e,
    sort_gt by_dist {| index := i; dist := infinity |} e &&
    negb (sort_gt by_dist e {| index := i; dist := infinity |}))
    (other_candidates centroids i center1).

Definition all_others_nearer (centroids : list Centroid) : bool :=
  forallb (λ '(i, center1), others_nearer centroids i center1)
          (imap pair centroids).

(** Two links join the same unordered pair of centroids. *)
Definition same_pair (l1 l2 : Link) : Prop :=
  (source l1 = source l2 ∧ target l1 = target l2) ∨
  (source l1 = target l2 ∧ target l1 = source l2).

(** The unordered pair of a link, as the ordered pair (smaller, larger). *)
Definition upair (a b : nat) : nat * nat := (a `min` b, a `max` b).
Definition link_pair (l : Link) : nat * nat := upair (source l) (target l).

(** ** [processData]: the valid neighbourhoods *)

Definition validNeighborhoods (features : list Feature) : list Feature :=
  List.filter (λ feature, truthy (PRI_NEIGH feature)) features.

(** ** The object [crimeCounts] *)

(** The members of [Object.prototype], which an object created by [{}]
    inherits. *)
Definition object_prototype_members : list string :=
  [ "constructor"; "hasOwnProperty"; "isPrototypeOf"; "propertyIsEnumerable";
    "toLocaleString"; "toString"; "valueOf"; "__proto__";
    "__defineGetter__"; "__defineSetter__"; "__lookupGetter__";
    "__lookupSetter__" ].

(** [crimeCounts[key] = value] for a number [value].  Without an own property
    [__proto__] the assignment to that key calls the inherited setter, which
    ignores a number: no property is created.  Every other assignment
    creates or updates the own property. *)
Definition js_set (crimeCounts : gmap string nat) (key : string) (value : nat)
    : gmap string nat :=
  if bool_decide (key = "__proto__" ∧ crimeCounts !! key = None)
  then crimeCounts
  else <[key := value]> crimeCounts.

(** What [crimeCounts[key]] reads: the number of the own property, else the
    member of [Object.prototype] of that name (a function, or for
    [__proto__] the object [Object.prototype] itself), else [undefined]. *)
Inductive property_value : Type :=
  | OwnNumber (n : nat)
  | Inherited (member : string)
  | Undefined.

Definition js_get (crimeCounts : gmap string nat) (key : string)
    : property_value :=
  match crimeCounts !! key with
  | Some n => OwnNumber n
  | None =>
      if bool_decide (key ∈ object_prototype_members) then Inherited key
      else Undefined
  end.

(** [crimeCounts.hasOwnProperty(key)].  The method is the inherited one
    unless [crimeCounts] has an own property named [hasOwnProperty]; that
    property is a number, and calling it raises a TypeError: [None]. *)
Definition hasOwnProperty (crimeCounts : gmap string nat) (key : string)
    : option bool :=
  match crimeCounts !! "hasOwnProperty" with
  | Some _ => None
  | None => Some (bool_decide (is_Some (crimeCounts !! key)))
  end.

(** ** [processCrimeCounts] *)

(** The first loop: [this.data.crimeCounts[name] = 0]. *)
Definition init_counts (valid : list Feature) (crimeCounts : gmap string nat)
    : gmap string nat :=
  foldl (λ counts feature, js_set counts (toKey (PRI_NEIGH feature)) 0)
        crimeCounts valid.

(** [crimeCounts[key]++] where [key] has an own property: the number is
    replaced by the next one.  The loop guards the statement with
    [hasOwnProperty], so it is not reached for another key; the model leaves
    the object as it is there. *)
Definition increment (crimeCounts : gmap string nat) (key : string)
    : gmap string nat :=
  match crimeCounts !! key with
  | Some n => js_set crimeCounts key (n + 1)
  | None => crimeCounts
  end.

(** The body of the second loop; [None] when it raises.  The condition
    [neighborhoodName && ...] calls [hasOwnProperty] for a truthy label
    only. *)
Definition count_crime (crimeCounts : gmap string nat) (crime : Feature)
    : option (gmap string nat) :=
  let neighborhoodName := PRI_NEIGH crime in
  if truthy neighborhoodName then
    match hasOwnProperty crimeCounts (toKey neighborhoodName) with
    | None => None
    | Some true => Some (increment crimeCounts (toKey neighborhoodName))
    | Some false => Some crimeCounts
    end
  else Some crimeCounts.

(** The second loop from the object [crimeCounts]: the first record that
    raises ends it. *)
Definition count_crimes (crimeCounts : gmap string nat) (crimes : list Feature)
    : option (gmap string nat) :=
  foldl (λ counts crime, counts ≫= λ c, count_crime c crime)
        (Some crimeCounts) crimes.

Definition processCrimeCounts_from (valid crimes : list Feature)
    (crimeCounts : gmap string nat) : option (gmap string nat) :=
  count_crimes (init_counts valid crimeCounts) crimes.

(** [crimeCounts] is the empty object set by the constructor. *)
Definition processCrimeCounts (valid crimes : list Feature)
    : option (gmap string nat) :=
  processCrimeCounts_from valid crimes ∅.

(** The body of the second loop when [hasOwnProperty] is the inherited
    method: the step [count_crime] takes whenever it does not raise. *)
Definition count_own (crimeCounts : gmap string nat) (crime : Feature)
    : gmap string nat :=
  if truthy (PRI_NEIGH crime)
  then increment crimeCounts (toKey (PRI_NEIGH crime))
  else crimeCounts.

(** A record that [count_own] counts: its label is truthy and its key has an
    own property. *)
Definition counted (crimeCounts : gmap string nat) (crime : Feature) : bool :=
  truthy (PRI_NEIGH crime) &&
  bool_decide (is_Some (crimeCounts !! toKey (PRI_NEIGH crime))).

(** The keys of the valid neighbourhoods. *)
Definition region_keys (valid : list Feature) : list string :=
  (λ feature, toKey (PRI_NEIGH feature)) <$> valid.

(** A crime record labelled with the region [r]. *)
Definition labelled (r : string) (crime : Feature) : bool :=
  truthy (PRI_NEIGH crime) && String.eqb (toKey (PRI_NEIGH crime)) r.

(** A crime record the second loop counts: its label is truthy and is the key
    of a valid neighbourhood. *)
Definition assigned (valid : list Feature) (crime : Feature) : bool :=
  truthy (PRI_NEIGH crime) &&
  bool_decide (toKey (PRI_NEIGH crime) ∈ region_keys valid).

(** The sum of all the counts of the mapping. *)
Definition total_count (crimeCounts : gmap string nat) : nat :=
  map_fold (λ _ n acc, n + acc) 0 crimeCounts.

(** ** [calculateCentroids] *)

Section Centroids.
(** [this.pathGenerator.centroid], a function of the d3 library. *)
Variable pathCentroid : Feature → Position.

Definition make_centroid (f : Feature) : Centroid :=
  {| name := PRI_NEIGH f; coords := pathCentroid f; feature := f |}.

Definition centroid_kept (d : Centroid) : bool :=
  negb (isNaN (coords d).1) && negb (isNaN (coords d).2).

Definition calculateCentroids (valid : list Feature) : list Centroid :=
  List.filter centroid_kept (map make_centroid valid).
End Centroids.

(** Both coordinates of a centroid are finite numbers. *)
Definition finite_coords (d : Centroid) : bool :=
  PrimFloat.is_finite (coords d).1 && PrimFloat.is_finite (coords d).2.

(** ** The spatial join

    The join runs in [preprocess_data.py], which is not among the sources;
    [script.js] only reads the label it leaves in [PRI_NEIGH]. *)

Module SpatialJoin.

Record Point : Type := mkPoint {
  coordinate : Position;
  regionId : option string
}.

Record Polygon : Type := mkPolygon {
  id : string;
  rings : list (list Position)
}.

(** A polygon takes part in the join when its identifier is non-empty. *)
Definition valid_polygon (poly : Polygon) : bool :=
  negb (String.eqb (id poly) "").

Section Join.
(** The geometry utilities of section 4.1, known by their contracts. *)
Variable Params : Type.
Variable project : Position → Params → Position.
Variable pointInPolygon : Position → Polygon → bool.

Definition contains (params : Params) (pt : Point) (poly : Polygon) : Prop :=
  valid_polygon poly = true ∧
  pointInPolygon (project (coordinate pt) params) poly = true.

#[local] Instance contains_dec params pt poly : Decision (contains params pt poly).
Proof. unfold contains. apply _. Defined.

(** Modelled from the spec: [assignRegions] of section 4.2, the join of
    [preprocess_data.py].  Each point is projected, tested against every
    valid polygon in input order, and given the identifier of the first
    polygon that contains it; a point no polygon contains keeps an absent
    identifier. *)
Definition assignRegion (params : Params) (polygons : list Polygon)
    (pt : Point) : Point :=
  {| coordinate := coordinate pt;
     regionId := (id ∘ snd) <$> list_find (contains params pt) polygons |}.

Definition assignRegions (params : Params) (points : list Point)
    (polygons : list Polygon) : list Point :=
  map (assignRegion params polygons) points.
End Join.

(** Modelled from the spec: [pointInPolygon] of section 4.1 by ray casting
    with the even-odd rule across all the rings of the polygon. *)
Definition edge_crossed (p a b : Position) : bool :=
  negb (Bool.eqb (p.2 <? a.2)%float (p.2 <? b.2)%float) &&
  (p.1 <? (b.1 - a.1) * (p.2 - a.2) / (b.2 - a.2) + a.1)%float.

Fixpoint ring_parity (p : Position) (ring : list Position) : bool :=
  match ring with
  | a :: rest =>
      match rest with
      | b :: _ => xorb (edge_crossed p a b) (ring_parity p rest)
      | [] => false
      end
  | [] => false
  end.

Definition even_odd (p : Position) (poly : Polygon) : bool :=
  foldr (λ ring odd, xorb (ring_parity p ring) odd) false (rings poly).

End SpatialJoin.

(** ** [createColorScale]: the greatest count *)

(** [d3.max(Object.values(this.data.crimeCounts))]: the greatest of the
    numbers, [undefined] when there is none. *)
Definition greatest_count (crimeCounts : gmap string nat) : option nat :=
  map_fold (λ _ n acc, Some (from_option (Nat.max n) n acc)) None crimeCounts.

(** [this.maxCrimeCount = d3.max(allCounts) || 1]: [undefined] and [0] are
    falsy. *)
Definition maxCrimeCount (crimeCounts : gmap string nat) : nat :=
  match greatest_count crimeCounts with
  | Some (S m) => S m
  | Some 0 | None => 1
  end.

(** ** The neighbourhood layer *)

Section NeighborhoodLayer.
(** [this.visualizer.scales.color], a threshold scale of d3, and
    [CONFIG.visual.emptyColor]. *)
Context {Color : Type} (colorScale : nat → Color) (emptyColor : Color).

(** [getFillColor(d)].  [count] is [crimeCounts[name] || 0]: the number of
    the own property, 0 for [undefined], and the inherited member itself when
    the read reaches [Object.prototype]; [count > 0] then compares [NaN] and
    is false. *)
Definition getFillColor (crimeCounts : gmap string nat) (d : Feature) : Color :=
  let name := PRI_NEIGH d in
  match js_get crimeCounts (toKey name) with
  | OwnNumber count => if Nat.ltb 0 count then colorScale count else emptyColor
  | Inherited _ => emptyColor
  | Undefined => emptyColor
  end.
End NeighborhoodLayer.

Section Tooltip.
(** The text of a function of [Object.prototype], as
    [Function.prototype.toString] of the engine gives it. *)
Variable native_source : string → string.

(** [`${count}`] for [count = crimeCounts[name] || 0].  [pretty] writes a
    number as a decimal numeral, as the template does for a count below
    10^21; the object [Object.prototype] is written [[object Object]]. *)
Definition count_text (count : property_value) : string :=
  match count with
  | OwnNumber n => pretty n
  | Undefined => "0"
  | Inherited member =>
      if String.eqb member "__proto__" then "[object Object]"
      else native_source member
  end.

(** The text [handleMouseOver] gives the tooltip:
    [`<strong>${name}</strong><br/>Crimes: ${count}`]. *)
Definition tooltip_html (crimeCounts : gmap string nat) (d : Feature) : string :=
  let name := if truthy (PRI_NEIGH d) then PRI_NEIGH d else JStr "N/A" in
  let count := js_get crimeCounts (toKey name) in
  "<strong>" +:+ toKey name +:+ "</strong><br/>Crimes: " +:+ count_text count.
End Tooltip.

(** ** [processData], [validateData] and [loadData] *)

(** What [processData] leaves in [this.data] and [this.maxCrimeCount]. *)
Record Data : Type := mkData {
  data_crimeCounts : gmap string nat;
  data_maxCrimeCount : nat;
  data_centroids : list Centroid;
  data_knnLinks : list Link
}.

(** A parsed GeoJSON document; [features] is [None] when the member is
    missing. *)
Record FeatureCollection : Type := mkCollection {
  features : option (list Feature)
}.

(** The end of [loadData]: a message given to [showError], or the processed
    data that is rendered. *)
Inductive Outcome : Type :=
  | ShowError (message : string)
  | Rendered (data : Data).

Section Pipeline.
(** [createProjection]: the centroid function of the path generator that d3
    fits to the neighbourhood features. *)
Variable geoPathCentroid : list Feature → Feature → Position.
(** [this.config.knn.k]. *)
Variable K : nat.

(** [processData]; [None] when [processCrimeCounts] raises. *)
Definition processData (neighborhoods crimes : list Feature) : option Data :=
  let valid := validNeighborhoods neighborhoods in
  crimeCounts ← processCrimeCounts valid crimes;
  let centroids := calculateCentroids (geoPathCentroid neighborhoods) valid in
  Some {| data_crimeCounts := crimeCounts;
          data_maxCrimeCount := maxCrimeCount crimeCounts;
          data_centroids := centroids;
          data_knnLinks := calculateKNN K centroids |}.

(** [validateData]: [None] when it returns [true], otherwise the message it
    shows before it returns [false].  A document is [None] when it is [null];
    an empty array of features is truthy. *)
Definition validateData (neighborhoodData crimeData : option FeatureCollection)
    : option string :=
  match neighborhoodData ≫= features with
  | None => Some "Invalid neighborhood data structure"
  | Some _ =>
      match crimeData ≫= features with
      | None => Some "Invalid crime data structure"
      | Some _ => None
      end
  end.

(** The callback of [loadData] for the two documents that were fetched.  An
    error raised by [processData] is caught by the handler [.catch], which
    shows its own message. *)
Definition loadData (neighborhoodData crimeData : option FeatureCollection)
    : Outcome :=
  match validateData neighborhoodData crimeData with
  | Some message => ShowError message
  | None =>
      match processData (default [] (neighborhoodData ≫= features))
                        (default [] (crimeData ≫= features)) with
      | Some data => Rendered data
      | None => ShowError "Error loading data. Check console and file paths."
      end
  end.
End Pipeline.

(** ** The link layer *)

(** The two ends of the line [KNNLinkLayer.render] draws for a link:
    [(d.source.coords, d.target.coords)]; a link stores positions, which are
    looked up in the centroid array. *)
Definition link_line (centroids : list Centroid) (link : Link)
    : option (Position * Position) :=
  s ← centroids !! source link;
  t ← centroids !! target link;
  Some (coords s, coords t).

(** ** Measures of the link list *)

(** The link was pushed in the turn of its source, for an entry visited
    there. *)
Definition pushed_for_source (K : nat) (centroids : list Centroid)
    (link : Link) : Prop :=
  ∃ center1 e, centroids !! source link = Some center1 ∧
    e ∈ selected K centroids (source link) center1 ∧ index e = target link.

(** The links that start at the centroid at position [i]. *)
Definition links_from (i : nat) (knnLinks : list Link) : list Link :=
  List.filter (λ link, Nat.eqb (source link) i) knnLinks.

(** The positions that are an end of some link. *)
Definition link_ends (knnLinks : list Link) : gset nat :=
  list_to_set (knnLinks ≫= λ link, [source link; target link]).

(** ** Sample data *)

(** A centroid named [n] at the planar point [(x, y)]. *)
Definition centroid_at (n : string) (x y : float) : Centroid :=
  {| name := JStr n; coords := (x, y);
     feature := {| PRI_NEIGH := JStr n; geometry := [] |} |}.

(** Two centroids, and the three centroids of the scenario of section 8. *)
Definition two_centroids : list Centroid :=
  [centroid_at "Loop" 0 0; centroid_at "Uptown" 1 0].

Definition three_centroids : list Centroid :=
  [centroid_at "Loop" 0 0; centroid_at "Uptown" 1 0; centroid_at "Hyde Park" 10 10].

(** Three polygons for the join: one without identifier, and two squares
    side by side. *)
Definition sample_polygons : list SpatialJoin.Polygon :=
  [ SpatialJoin.mkPolygon "" [[(0, 0); (2, 0); (2, 2); (0, 2); (0, 0)]%float];
    SpatialJoin.mkPolygon "A" [[(0, 0); (2, 0); (2, 2); (0, 2); (0, 0)]%float];
    SpatialJoin.mkPolygon "B" [[(2, 0); (4, 0); (4, 2); (2, 2); (2, 0)]%float] ].

Definition sample_point : SpatialJoin.Point :=
  SpatialJoin.mkPoint (1, 1)%float None.

(** The projection that leaves the coordinates as they are. *)
Definition no_projection (p : Position) (params : unit) : Position := p.

(** A feature, and a path generator whose centroid has an infinite abscissa. *)
Definition sample_feature : Feature :=
  {| PRI_NEIGH := JStr "Loop"; geometry := [] |}.

Definition centroid_at_infinity (f : Feature) : Position :=
  (infinity, 0%float).

(** Five centroids at the distances 3, 1, 1 and 2 from the first, and three
    centroids of which the first is so far that the square of its distance
    to the others overflows. *)
Definition scattered_centroids : list Centroid :=
  [centroid_at "Loop" 0 0; centroid_at "Uptown" 3 0;
   centroid_at "Austin" 1 0; centroid_at "Hyde Park" (-1) 0;
   centroid_at "Pullman" 0 2].


(** Neighbourhood and crime records: one neighbourhood without name, two
    crimes in the Loop, one with an unknown label, one without label. *)
Definition sample_neighborhoods : list Feature :=
  [ {| PRI_NEIGH := JStr "Loop"; geometry := [] |};
    {| PRI_NEIGH := JNull; geometry := [] |};
    {| PRI_NEIGH := JStr "Uptown"; geometry := [] |} ].

Definition sample_crimes : list Feature :=
  [ {| PRI_NEIGH := JStr "Loop"; geometry := [] |};
    {| PRI_NEIGH := JStr "Elsewhere"; geometry := [] |};
    {| PRI_NEIGH := JNull; geometry := [] |};
    {| PRI_NEIGH := JStr "Loop"; geometry := [] |} ].

(** Neighbourhoods named after members of [Object.prototype], and one crime
    record for each of the neighbourhoods [__proto__] and [Loop]. *)
Definition proto_neighborhoods : list Feature :=
  [ {| PRI_NEIGH := JStr "Loop"; geometry := [] |};
    {| PRI_NEIGH := JStr "__proto__"; geometry := [] |} ].

Definition shadowing_neighborhoods : list Feature :=
  [ {| PRI_NEIGH := JStr "hasOwnProperty"; geometry := [] |};
    {| PRI_NEIGH := JStr "Loop"; geometry := [] |} ].

Definition proto_crimes : list Feature :=
  [ {| PRI_NEIGH := JStr "__proto__"; geometry := [] |};
    {| PRI_NEIGH := JStr "Loop"; geometry := [] |} ].

(** A path generator that puts every centroid at the origin. *)
Definition centroid_at_origin (neighborhoods : list Feature) (f : Feature)
    : Position :=
  (0%float, 0%float).

(** * Properties *)

(** ** The region counts *)

Section Counts.
Implicit Types (crimeCounts : gmap string nat) (valid crimes : list Feature).
Implicit Types (r key : string) (crime : Feature).

Lemma js_set_lookup crimeCounts key value r :
  js_set crimeCounts key value !! r =
    if bool_decide (r = key ∧ (key ≠ "__proto__" ∨ is_Some (crimeCounts !! key)))
    then Some value else crimeCounts !! r.
Proof.
  unfold js_set. case_bool_decide as H1; case_bool_decide as H2.
  - destruct H1 as [-> H1], H2 as [-> [H2|H2]]; [done|].
    rewrite H1 in H2. by destruct H2.
  - done.
  - destruct H2 as [-> _]. by rewrite lookup_insert_eq.
  - destruct (decide (r = key)) as [->|Hne]; [|by rewrite lookup_insert_ne].
    exfalso. apply H2. split; [done|].
    destruct (decide (key = "__proto__")) as [->|]; [right|by left].
    destruct (crimeCounts !! "__proto__") eqn:E; [done|].
    exfalso. by apply H1.
Qed.

Lemma js_set_own crimeCounts key value :
  is_Some (crimeCounts !! key) →
  js_set crimeCounts key value = <[key := value]> crimeCounts.
Proof.
  intros [n Hn]. unfold js_set. rewrite bool_decide_eq_false_2; [done|].
  intros [_ Hnone]. congruence.
Qed.

Lemma init_counts_lookup valid crimeCounts r :
  init_counts valid crimeCounts !! r =
    if bool_decide (r ∈ region_keys valid ∧
                    (r ≠ "__proto__" ∨ is_Some (crimeCounts !! r)))
    then Some 0 else crimeCounts !! r.
Proof.
  unfold init_counts, region_keys.
  revert crimeCounts; induction valid as [|f valid IH]; intros m.
  - rewrite bool_decide_eq_false_2; [done|]. intros [H _]. by apply elem_of_nil in H.
  - rewrite fmap_cons. cbn [foldl]. rewrite IH, !js_set_lookup.
    set (k := toKey (PRI_NEIGH f)).
    set (ks := (λ feature, toKey (PRI_NEIGH feature)) <$> valid).
    destruct (decide (r = k)) as [->|Hne].
    + destruct (decide (k ≠ "__proto__" ∨ is_Some (m !! k))) as [Hk|Hk].
      * rewrite (bool_decide_eq_true_2 (k = k ∧ _)) by done.
        rewrite (bool_decide_eq_true_2 (k ∈ k :: ks ∧ _))
          by (split; [apply elem_of_cons; by left|done]).
        by case_bool_decide.
      * rewrite (bool_decide_eq_false_2 (k = k ∧ _)) by tauto.
        rewrite (bool_decide_eq_false_2 (k ∈ k :: ks ∧ _)) by tauto.
        rewrite bool_decide_eq_false_2; [done|]. tauto.
    + rewrite (bool_decide_eq_false_2 (r = k ∧ _)) by tauto.
      apply (f_equal (λ b : bool, if b then Some 0 else m !! r)).
      apply bool_decide_ext. rewrite elem_of_cons. tauto.
Qed.

Lemma init_counts_empty_lookup valid r :
  init_counts valid ∅ !! r =
    if bool_decide (r ∈ region_keys valid ∧ r ≠ "__proto__") then Some 0 else None.
Proof.
  rewrite init_counts_lookup, lookup_empty.
  apply (f_equal (λ b : bool, if b then Some 0 else None)).
  apply bool_decide_ext. rewrite is_Some_alt. tauto.
Qed.

Lemma labelled_key r crime :
  labelled r crime = true ↔
    truthy (PRI_NEIGH crime) = true ∧ toKey (PRI_NEIGH crime) = r.
Proof.
  unfold labelled. rewrite andb_true_iff, String.eqb_eq. tauto.
Qed.

Lemma increment_lookup crimeCounts key r :
  increment crimeCounts key !! r =
    (λ n, if bool_decide (r = key) then n + 1 else n) <$> crimeCounts !! r.
Proof.
  unfold increment.
  destruct (crimeCounts !! key) as [n|] eqn:Hn.
  - rewrite js_set_own by eauto.
    destruct (decide (r = key)) as [->|Hne].
    + rewrite lookup_insert_eq, Hn. simpl. by rewrite bool_decide_eq_true_2.
    + rewrite lookup_insert_ne by done.
      destruct (crimeCounts !! r); simpl; [|done].
      by rewrite bool_decide_eq_false_2.
  - destruct (decide (r = key)) as [->|Hne]; [by rewrite Hn|].
    destruct (crimeCounts !! r); simpl; [|done].
    by rewrite bool_decide_eq_false_2.
Qed.

Lemma count_own_lookup crimeCounts crime r :
  count_own crimeCounts crime !! r =
    (λ n, if labelled r crime then n + 1 else n) <$> crimeCounts !! r.
Proof.
  unfold count_own, labelled.
  destruct (truthy (PRI_NEIGH crime)); simpl; [|by destruct (crimeCounts !! r)].
  rewrite increment_lookup.
  destruct (crimeCounts !! r); simpl; [|done].
  case_bool_decide as Hr.
  - subst r. by rewrite String.eqb_refl.
  - apply not_eq_sym, String.eqb_neq in Hr. by rewrite Hr.
Qed.

Lemma count_owns_lookup crimes crimeCounts r :
  foldl count_own crimeCounts crimes !! r =
    (λ n, n + length (List.filter (labelled r) crimes)) <$> crimeCounts !! r.
Proof.
  revert crimeCounts; induction crimes as [|c crimes IH]; intros m; simpl.
  - destruct (m !! r); simpl; f_equal; lia.
  - rewrite IH, count_own_lookup.
    destruct (m !! r) as [n|]; simpl; [|done].
    destruct (labelled r c); simpl; f_equal; lia.
Qed.

(** [count_crime] raises exactly for a truthy label on an object with an own
    property [hasOwnProperty]; otherwise it takes the step [count_own]. *)
Lemma count_crime_Some crimeCounts crime counts :
  count_crime crimeCounts crime = Some counts →
  counts = count_own crimeCounts crime.
Proof.
  unfold count_crime, count_own, hasOwnProperty.
  destruct (truthy (PRI_NEIGH crime)); [|congruence].
  destruct (crimeCounts !! "hasOwnProperty"); [done|].
  case_bool_decide as Hown; [congruence|]. intros [= <-].
  unfold increment.
  destruct (crimeCounts !! toKey (PRI_NEIGH crime)) eqn:E; [|done].
  exfalso. apply Hown. eauto.
Qed.

Lemma count_crime_None crimeCounts crime :
  count_crime crimeCounts crime = None ↔
    truthy (PRI_NEIGH crime) = true ∧ is_Some (crimeCounts !! "hasOwnProperty").
Proof.
  unfold count_crime, hasOwnProperty.
  destruct (truthy (PRI_NEIGH crime)).
  - destruct (crimeCounts !! "hasOwnProperty") as [n|].
    + split; [eauto|done].
    + case_bool_decide; (split; [done|]); by intros [_ [? ?]].
  - split; [done|]. by intros [? _].
Qed.

Lemma count_crimes_raised crimes :
  foldl (λ counts crime, counts ≫= λ c, count_crime c crime) None crimes = None.
Proof. by induction crimes. Qed.

Lemma count_crimes_cons crimeCounts crime crimes :
  count_crimes crimeCounts (crime :: crimes) =
    count_crime crimeCounts crime ≫= λ counts, count_crimes counts crimes.
Proof.
  unfold count_crimes. cbn [foldl mbind option_bind].
  destruct (count_crime crimeCounts crime); [done|].
  apply count_crimes_raised.
Qed.

Lemma count_crimes_Some crimes crimeCounts counts :
  count_crimes crimeCounts crimes = Some counts →
  counts = foldl count_own crimeCounts crimes.
Proof.
  revert crimeCounts; induction crimes as [|c crimes IH]; intros m.
  - by intros [= <-].
  - rewrite count_crimes_cons.
    destruct (count_crime m c) as [m'|] eqn:Hstep; [|done].
    apply count_crime_Some in Hstep as ->. simpl. apply IH.
Qed.

Lemma count_crimes_None crimes crimeCounts :
  count_crimes crimeCounts crimes = None ↔
    is_Some (crimeCounts !! "hasOwnProperty") ∧
    ∃ crime, crime ∈ crimes ∧ truthy (PRI_NEIGH crime) = true.
Proof.
  revert crimeCounts; induction crimes as [|c crimes IH]; intros m.
  - split; [done|]. intros (_ & crime & Hin & _). by apply elem_of_nil in Hin.
  - rewrite count_crimes_cons.
    destruct (count_crime m c) as [m'|] eqn:Hstep; simpl.
    + pose proof (count_crime_Some _ _ _ Hstep) as ->.
      assert (is_Some (count_own m c !! "hasOwnProperty") ↔
              is_Some (m !! "hasOwnProperty")) as Hsame
        by (rewrite count_own_lookup; apply fmap_is_Some).
      rewrite IH, Hsame. split.
      * intros (Hown & crime & Hin & Ht). split; [done|].
        exists crime. split; [|done]. apply elem_of_cons. by right.
      * intros (Hown & crime & Hin & Ht). split; [done|].
        exists crime. split; [|done].
        apply elem_of_cons in Hin as [->|Hin]; [|done].
        assert (count_crime m c = None) as Hnone by by apply count_crime_None.
        congruence.
    + apply count_crime_None in Hstep as [Ht Hown].
      split; [|done]. intros _. split; [done|].
      exists c. split; [|done]. apply elem_of_cons. by left.
Qed.

Lemma processCrimeCounts_from_None valid crimes crimeCounts :
  processCrimeCounts_from valid crimes crimeCounts = None ↔
    (is_Some (crimeCounts !! "hasOwnProperty") ∨
     "hasOwnProperty" ∈ region_keys valid) ∧
    ∃ crime, crime ∈ crimes ∧ truthy (PRI_NEIGH crime) = true.
Proof.
  unfold processCrimeCounts_from. rewrite count_crimes_None.
  rewrite init_counts_lookup.
  assert (is_Some (if bool_decide ("hasOwnProperty" ∈ region_keys valid ∧
                     ("hasOwnProperty" ≠ "__proto__" ∨
                      is_Some (crimeCounts !! "hasOwnProperty")))
                   then Some 0 else crimeCounts !! "hasOwnProperty") ↔
          is_Some (crimeCounts !! "hasOwnProperty") ∨
          "hasOwnProperty" ∈ region_keys valid) as ->; [|done].
  case_bool_decide as Hk.
  - split; [tauto|eauto].
  - split; [tauto|]. intros [?|Hin]; [done|].
    exfalso. apply Hk. split; [done|]. by left.
Qed.

Lemma processCrimeCounts_from_lookup valid crimes crimeCounts counts r :
  processCrimeCounts_from valid crimes crimeCounts = Some counts →
  counts !! r =
    (λ n, n + length (List.filter (labelled r) crimes)) <$>
      init_counts valid crimeCounts !! r.
Proof.
  unfold processCrimeCounts_from. intros ->%count_crimes_Some.
  apply count_owns_lookup.
Qed.

Lemma processCrimeCounts_lookup valid crimes counts r :
  processCrimeCounts valid crimes = Some counts →
  counts !! r =
    if bool_decide (r ∈ region_keys valid ∧ r ≠ "__proto__")
    then Some (length (List.filter (labelled r) crimes))
    else None.
Proof.
  unfold processCrimeCounts. intros H.
  rewrite (processCrimeCounts_from_lookup _ _ _ _ _ H), init_counts_empty_lookup.
  by case_bool_decide.
Qed.

Lemma processCrimeCounts_None valid crimes :
  processCrimeCounts valid crimes = None ↔
    "hasOwnProperty" ∈ region_keys valid ∧
    ∃ crime, crime ∈ crimes ∧ truthy (PRI_NEIGH crime) = true.
Proof.
  unfold processCrimeCounts. rewrite processCrimeCounts_from_None.
  rewrite lookup_empty, is_Some_alt. tauto.
Qed.

(** Adding one to an entry adds one to the sum of the entries. *)
Lemma total_count_insert crimeCounts r n :
  crimeCounts !! r = None →
  total_count (<[r:=n]> crimeCounts) = n + total_count crimeCounts.
Proof.
  intros Hr. unfold total_count.
  rewrite map_fold_insert_L; [done| |done].
  intros; lia.
Qed.

Lemma total_count_increment crimeCounts r n :
  crimeCounts !! r = Some n →
  total_count (<[r:=n + 1]> crimeCounts) = total_count crimeCounts + 1.
Proof.
  intros Hr.
  rewrite <- (insert_delete_eq crimeCounts r (n + 1)).
  rewrite total_count_insert by apply lookup_delete_eq.
  rewrite <- (insert_delete_id crimeCounts r n) at 2 by done.
  rewrite total_count_insert by apply lookup_delete_eq.
  lia.
Qed.

Lemma total_count_zero crimeCounts :
  (∀ r n, crimeCounts !! r = Some n → n = 0) → total_count crimeCounts = 0.
Proof.
  induction crimeCounts as [|r n m Hr IH] using map_ind; intros Hz.
  - apply map_fold_empty.
  - rewrite total_count_insert by done.
    rewrite (Hz r n) by apply lookup_insert_eq.
    rewrite IH; [done|].
    intros r' n' Hr'. apply (Hz r').
    rewrite lookup_insert_ne; [done|]. congruence.
Qed.

Lemma total_count_count_own crimeCounts crime :
  total_count (count_own crimeCounts crime) =
    total_count crimeCounts + (if counted crimeCounts crime then 1 else 0).
Proof.
  unfold count_own, counted, increment.
  destruct (truthy (PRI_NEIGH crime)); simpl; [|lia].
  destruct (crimeCounts !! toKey (PRI_NEIGH crime)) as [n|] eqn:Hn.
  - rewrite js_set_own by eauto.
    rewrite (total_count_increment _ _ _ Hn).
    by rewrite bool_decide_eq_true_2 by eauto.
  - rewrite bool_decide_eq_false_2; [lia|]. by intros [? ?].
Qed.

Lemma total_count_count_owns crimes crimeCounts :
  total_count (foldl count_own crimeCounts crimes) =
    total_count crimeCounts + length (List.filter (counted crimeCounts) crimes).
Proof.
  revert crimeCounts; induction crimes as [|c crimes IH]; intros m; simpl; [lia|].
  rewrite IH, total_count_count_own.
  assert (List.filter (counted (count_own m c)) crimes =
          List.filter (counted m) crimes) as ->.
  { apply List.filter_ext. intros c'. unfold counted. f_equal.
    apply bool_decide_ext. rewrite count_own_lookup. apply fmap_is_Some. }
  destruct (counted m c); simpl; lia.
Qed.

Lemma processCrimeCounts_total valid crimes counts :
  processCrimeCounts valid crimes = Some counts →
  "__proto__" ∉ region_keys valid →
  total_count counts +
  length (List.filter (λ crime, negb (assigned valid crime)) crimes) =
  length crimes.
Proof.
  unfold processCrimeCounts, processCrimeCounts_from.
  intros ->%count_crimes_Some Hproto.
  rewrite total_count_count_owns.
  rewrite (total_count_zero (init_counts valid ∅)).
  2:{ intros r n. rewrite init_counts_empty_lookup. case_bool_decide; congruence. }
  assert (List.filter (counted (init_counts valid ∅)) crimes =
          List.filter (assigned valid) crimes) as ->.
  { apply List.filter_ext. intros c. unfold counted, assigned. f_equal.
    apply bool_decide_ext. rewrite init_counts_empty_lookup.
    case_bool_decide as Hk.
    - split; [tauto|eauto].
    - split; [by intros [? ?]|]. intros Hin. exfalso. apply Hk.
      split; [done|]. intros Heq. by rewrite Heq in Hin. }
  simpl. clear. induction crimes as [|c crimes IH]; simpl; [done|].
  destruct (assigned valid c); simpl; lia.
Qed.
End Counts.

(** C6.  [processCrimeCounts] on two inputs with a neighbourhood named after
    a member of [Object.prototype].  With the valid neighbourhoods [Loop]
    and [__proto__], the assignment [crimeCounts["__proto__"] = 0] creates
    no property: the mapping that results has the entry of [Loop] only, and
    the record labelled [__proto__] is not counted.  With the valid
    neighbourhood [hasOwnProperty], the first loop stores the number 0 under
    that name and the call [crimeCounts.hasOwnProperty(...)] for the first
    record with a truthy label raises a TypeError. *)
Theorem region_named_after_prototype_member :
  "__proto__" ∈ region_keys (validNeighborhoods proto_neighborhoods) ∧
  (∃ counts,
     processCrimeCounts (validNeighborhoods proto_neighborhoods) proto_crimes =
       Some counts ∧
     counts !! "__proto__" = None ∧ counts !! "Loop" = Some 1) ∧
  processCrimeCounts (validNeighborhoods shadowing_neighborhoods) proto_crimes =
    None.
Proof.
  split; [|split].
  - apply list_elem_of_In. simpl. tauto.
  - eexists. split; [reflexivity|]. split; reflexivity.
  - reflexivity.
Qed.

(** C7.  On the input with the valid neighbourhoods [Loop] and [__proto__]
    and one crime record for each, every record is assigned to a valid
    region, but the counts of the mapping add up to 1: with the records that
    are not assigned they give 1, not 2, the number of records. *)
Theorem region_counts_total_misses_proto :
  ∃ counts,
    processCrimeCounts (validNeighborhoods proto_neighborhoods) proto_crimes =
      Some counts ∧
    total_count counts = 1 ∧
    length (List.filter
      (λ crime, negb (assigned (validNeighborhoods proto_neighborhoods) crime))
      proto_crimes) = 0 ∧
    length proto_crimes = 2.
Proof.
  eexists. split; [reflexivity|]. split; [|split]; reflexivity.
Qed.

(** C9.  A crime record whose label is falsy (the empty string, [null],
    [undefined], [false]) changes no entry of the mapping and raises no
    error, whatever the mapping holds, an entry for the empty string or an
    own property [hasOwnProperty] included. *)
Theorem falsy_label_never_counted (crimeCounts : gmap string nat) (crime : Feature) :
  truthy (PRI_NEIGH crime) = false →
  count_crime crimeCounts crime = Some crimeCounts.
Proof.
  intros Hf. unfold count_crime. by rewrite Hf.
Qed.

Lemma falsy_label_never_counted_witness :
  let crimeCounts : gmap string nat := {[ "" := 7; "Loop" := 2 ]} in
  let crime := {| PRI_NEIGH := JStr ""; geometry := [] |} in
  truthy (PRI_NEIGH crime) = false ∧
  count_crime crimeCounts crime = Some crimeCounts.
Proof.
  split; [reflexivity|].
  apply (falsy_label_never_counted {[ "" := 7; "Loop" := 2 ]}
           {| PRI_NEIGH := JStr ""; geometry := [] |}).
  reflexivity.
Defined.

(** ** The stable sort *)

Lemma elem_of_cons_skip {A} (a x y : A) (l : list A) :
  a ∈ x :: l → a ∈ x :: y :: l.
Proof. rewrite !elem_of_cons. tauto. Qed.

Section SortFacts.
Context {A : Type} (comparefn : A → A → float).
Local Abbreviation gt := (sort_gt comparefn).

Lemma sort_insert_perm x l : sort_insert comparefn x l ≡ₚ x :: l.
Proof.
  induction l as [|y l IH]; simpl; [done|].
  destruct (gt x y); [|done].
  rewrite IH. apply Permutation_swap.
Qed.

Lemma js_sort_perm l : js_sort comparefn l ≡ₚ l.
Proof.
  induction l as [|x l IH]; simpl; [done|].
  by rewrite sort_insert_perm, IH.
Qed.

Lemma js_sort_length l : length (js_sort comparefn l) = length l.
Proof. by rewrite js_sort_perm. Qed.

Lemma js_sort_elem_of x l : x ∈ js_sort comparefn l ↔ x ∈ l.
Proof. by rewrite js_sort_perm. Qed.

Lemma sort_insert_last x s :
  (∀ y, y ∈ s → gt x y = true) → sort_insert comparefn x s = s ++ [x].
Proof.
  induction s as [|y s IH]; intros Hgt; simpl; [done|].
  rewrite (Hgt y) by by left.
  rewrite IH; [done|]. intros z Hz. apply Hgt. by right.
Qed.

Lemma sort_insert_before_last x s z :
  gt x z = false →
  sort_insert comparefn x (s ++ [z]) = sort_insert comparefn x s ++ [z].
Proof.
  intros Hxz. induction s as [|y s IH]; simpl.
  - by rewrite Hxz.
  - destruct (gt x y); [|done]. by rewrite IH.
Qed.

Lemma js_sort_last l1 z l2 :
  (∀ x, x ∈ l1 → gt x z = false) → (∀ y, y ∈ l2 → gt z y = true) →
  js_sort comparefn (l1 ++ z :: l2) = js_sort comparefn (l1 ++ l2) ++ [z].
Proof.
  intros H1 H2. induction l1 as [|x l1 IH]; simpl.
  - apply sort_insert_last. intros y Hy. apply H2. by rewrite <- js_sort_elem_of.
  - rewrite IH by (intros x' Hx'; apply H1; by right).
    apply sort_insert_before_last, H1. by left.
Qed.

Context (key : A → nat).

Lemma sort_insert_sorted x s :
  asymmetric_on comparefn (x :: s) → transitive_on comparefn (x :: s) →
  Forall (λ y, key x < key y) s →
  StronglySorted (stands_before comparefn key) s →
  StronglySorted (stands_before comparefn key) (sort_insert comparefn x s).
Proof.
  intros Hasym Htrans Hkey Hs.
  induction Hs as [|y s Hs IH Hy]; simpl.
  - repeat constructor.
  - apply Forall_cons in Hkey as [Hxy Hkey].
    destruct (gt x y) eqn:Hgt.
    + constructor.
      * apply IH; [| |done].
        -- intros a b Ha Hb. apply Hasym; by apply elem_of_cons_skip.
        -- intros a b c Ha Hb Hc. apply Htrans; by apply elem_of_cons_skip.
      * apply Forall_forall. intros z Hz.
        rewrite sort_insert_perm in Hz. apply elem_of_cons in Hz as [->|Hz].
        -- split; [apply Hasym; [by left|by right; left|done]|]. congruence.
        -- by eapply Forall_forall in Hy.
    + constructor; [by constructor|].
      apply Forall_cons. split; [by split|].
      apply Forall_forall. intros z Hz. split.
      * apply (Htrans x y z); [by left|by right; left|by do 2 right|done|].
        by eapply Forall_forall in Hy as [? _].
      * intros _. by eapply Forall_forall in Hkey.
Qed.

Lemma js_sort_sorted l :
  asymmetric_on comparefn l → transitive_on comparefn l →
  StronglySorted (λ a b, key a < key b) l →
  StronglySorted (stands_before comparefn key) (js_sort comparefn l).
Proof.
  intros Hasym Htrans Hl.
  induction Hl as [|x l Hl IH Hx]; simpl; [constructor|].
  apply sort_insert_sorted.
  - intros a b Ha Hb. apply Hasym.
    + revert Ha. rewrite !elem_of_cons, js_sort_elem_of. tauto.
    + revert Hb. rewrite !elem_of_cons, js_sort_elem_of. tauto.
  - intros a b c Ha Hb Hc. apply Htrans.
    + revert Ha. rewrite !elem_of_cons, js_sort_elem_of. tauto.
    + revert Hb. rewrite !elem_of_cons, js_sort_elem_of. tauto.
    + revert Hc. rewrite !elem_of_cons, js_sort_elem_of. tauto.
  - apply Forall_forall. intros y Hy. rewrite js_sort_elem_of in Hy.
    rewrite Forall_forall in Hx. by apply Hx.
  - apply IH.
    + intros a b Ha Hb. apply Hasym; by right.
    + intros a b c Ha Hb Hc. apply Htrans; by right.
Qed.
End SortFacts.

Lemma StronglySorted_lookup_lt {A} (R : relation A) (l : list A) p q a b :
  StronglySorted R l → p < q → l !! p = Some a → l !! q = Some b → R a b.
Proof.
  intros Hl. revert p q.
  induction Hl as [|x l Hl IH Hx]; intros p q Hpq Hp Hq; [done|].
  destruct q as [|q]; [lia|]. simpl in Hq.
  destruct p as [|p]; simpl in Hp.
  - inversion Hp; subst. eapply Forall_forall in Hx; [done|].
    by eapply list_elem_of_lookup_2.
  - apply (IH p q); [lia|done..].
Qed.

(** ** The nearest-neighbour graph *)

Lemma upair_eq a b c d :
  upair a b = upair c d ↔ (a = c ∧ b = d) ∨ (a = d ∧ b = c).
Proof.
  unfold upair. split.
  - intros [=]. lia.
  - intros [[-> ->]|[-> ->]]; f_equal; lia.
Qed.

Lemma same_pair_link_pair l1 l2 : same_pair l1 l2 ↔ link_pair l1 = link_pair l2.
Proof. unfold same_pair, link_pair. by rewrite upair_eq. Qed.

Lemma link_exists_true knnLinks a b :
  link_exists knnLinks a b = true ↔ upair a b ∈ link_pair <$> knnLinks.
Proof.
  unfold link_exists. rewrite existsb_exists, list_elem_of_fmap.
  split.
  - intros (l & Hin & H). exists l. split; [|by apply list_elem_of_In].
    apply upair_eq.
    rewrite orb_true_iff, !andb_true_iff, !Nat.eqb_eq in H.
    destruct H as [[<- <-]|[<- <-]]; tauto.
  - intros (l & Heq & Hin). exists l. split; [by apply list_elem_of_In|].
    apply upair_eq in Heq.
    rewrite orb_true_iff, !andb_true_iff, !Nat.eqb_eq.
    destruct Heq as [[-> ->]|[-> ->]]; tauto.
Qed.

Section Links.
Implicit Types (knnLinks : list Link) (e : Entry) (p : nat * nat).

Lemma push_link_pairs i knnLinks e p :
  p ∈ link_pair <$> push_link i knnLinks e ↔
    p ∈ link_pair <$> knnLinks ∨ p = upair i (index e).
Proof.
  unfold push_link. destruct (link_exists knnLinks i (index e)) eqn:Hex.
  - apply link_exists_true in Hex. split; [by left|]. by intros [?| ->].
  - rewrite fmap_app, elem_of_app. simpl.
    by rewrite list_elem_of_singleton.
Qed.

Lemma push_link_NoDup i knnLinks e :
  NoDup (link_pair <$> knnLinks) →
  NoDup (link_pair <$> push_link i knnLinks e).
Proof.
  unfold push_link. destruct (link_exists knnLinks i (index e)) eqn:Hex; [done|].
  intros Hnd. rewrite fmap_app. apply NoDup_app. split; [done|]. split.
  - intros p Hp. simpl. rewrite list_elem_of_singleton. intros ->.
    apply (link_exists_true knnLinks i (index e)) in Hp. congruence.
  - apply NoDup_singleton.
Qed.

Lemma push_links_pairs i (sel : list Entry) knnLinks p :
  p ∈ link_pair <$> foldl (push_link i) knnLinks sel ↔
    p ∈ link_pair <$> knnLinks ∨ ∃ e, e ∈ sel ∧ p = upair i (index e).
Proof.
  revert knnLinks; induction sel as [|e sel IH]; intros links; simpl.
  - split; [by left|]. intros [?|(e & He & _)]; [done|].
    by apply not_elem_of_nil in He.
  - rewrite IH, push_link_pairs. split.
    + intros [[?| ->]|(e' & He' & ->)].
      * by left.
      * right. exists e. split; [by left|done].
      * right. exists e'. split; [by right|done].
    + intros [?|(e' & He' & ->)]; [by do 2 left|].
      apply elem_of_cons in He' as [->|He'].
      * left. by right.
      * right. by exists e'.
Qed.

Lemma push_links_NoDup i (sel : list Entry) knnLinks :
  NoDup (link_pair <$> knnLinks) →
  NoDup (link_pair <$> foldl (push_link i) knnLinks sel).
Proof.
  revert knnLinks; induction sel as [|e sel IH]; intros links Hnd; simpl;
    [done|].
  by apply IH, push_link_NoDup.
Qed.

Context (K : nat) (centroids : list Centroid).

(** The outer loop, over any list of positions and centroids. *)
Lemma knn_loop_pairs (ics : list (nat * Centroid)) knnLinks p :
  p ∈ link_pair <$>
      foldl (λ links '(i, center1),
               foldl (push_link i) links (selected K centroids i center1))
            knnLinks ics ↔
    p ∈ link_pair <$> knnLinks ∨
    ∃ i center1 e, (i, center1) ∈ ics ∧
      e ∈ selected K centroids i center1 ∧ p = upair i (index e).
Proof.
  revert knnLinks; induction ics as [|[i c] ics IH]; intros links; simpl.
  - split; [by left|]. intros [?|(i & c & e & Hin & _)]; [done|].
    by apply not_elem_of_nil in Hin.
  - rewrite IH, push_links_pairs. split.
    + intros [[?|(e & He & ->)]|(i' & c' & e & Hin & He & ->)].
      * by left.
      * right. exists i, c, e. split; [by left|done].
      * right. exists i', c', e. split; [by right|done].
    + intros [?|(i' & c' & e & Hin & He & ->)]; [by do 2 left|].
      apply elem_of_cons in Hin as [[= -> ->]|Hin].
      * left. right. by exists e.
      * right. by exists i', c', e.
Qed.

Lemma knn_loop_NoDup (ics : list (nat * Centroid)) knnLinks :
  NoDup (link_pair <$> knnLinks) →
  NoDup (link_pair <$>
           foldl (λ links '(i, center1),
                    foldl (push_link i) links (selected K centroids i center1))
                 knnLinks ics).
Proof.
  revert knnLinks; induction ics as [|[i c] ics IH]; intros links Hnd; simpl;
    [done|].
  by apply IH, push_links_NoDup.
Qed.

Lemma elem_of_positions i center1 :
  (i, center1) ∈ imap pair centroids ↔ centroids !! i = Some center1.
Proof.
  rewrite elem_of_lookup_imap. split.
  - by intros (j & c & [= -> ->] & Hj).
  - intros Hi. by exists i, center1.
Qed.

(** The pairs joined by [calculateKNN] are the pairs of a centroid and an
    entry selected for it. *)
Lemma calculateKNN_pairs p :
  p ∈ link_pair <$> calculateKNN K centroids ↔
    ∃ i center1 e, centroids !! i = Some center1 ∧
      e ∈ selected K centroids i center1 ∧ p = upair i (index e).
Proof.
  unfold calculateKNN, calculateKNN_from. rewrite knn_loop_pairs. split.
  - intros [Hnil|(i & c & e & Hin & He & ->)].
    + by apply not_elem_of_nil in Hnil.
    + exists i, c, e. by rewrite <- elem_of_positions.
  - intros (i & c & e & Hin & He & ->). right.
    exists i, c, e. by rewrite elem_of_positions.
Qed.

Lemma candidates_length i center1 :
  length (candidates centroids i center1) = length centroids.
Proof. apply length_imap. Qed.

Lemma distances_length i center1 :
  length (distances centroids i center1) = length centroids.
Proof. unfold distances. by rewrite js_sort_length, candidates_length. Qed.

Lemma candidates_index i center1 e :
  e ∈ candidates centroids i center1 → index e < length centroids.
Proof.
  unfold candidates. rewrite elem_of_lookup_imap.
  intros (j & c & -> & Hj). simpl. by eapply lookup_lt_Some.
Qed.

Lemma selected_index i center1 e :
  e ∈ selected K centroids i center1 → index e < length centroids.
Proof.
  unfold selected, distances. intros He.
  apply subseteq_take in He. rewrite js_sort_elem_of in He.
  by eapply candidates_index.
Qed.
End Links.

(** No two links of the result join the same unordered pair of centroids. *)
Theorem knn_no_duplicate_pairs (K : nat) (centroids : list Centroid) :
  NoDup (link_pair <$> calculateKNN K centroids).
Proof. apply knn_loop_NoDup. simpl. constructor. Qed.

(** Union semantics over the selected entries: the centroids at positions [a]
    and [b] are joined by a link exactly when the loop for [a] visits an entry
    of [b] or the loop for [b] visits an entry of [a]. *)
Theorem knn_union_of_selections (K : nat) (centroids : list Centroid) (a b : nat) :
  (∃ link, link ∈ calculateKNN K centroids ∧ same_pair link (mkLink a b)) ↔
  (∃ center1 e, centroids !! a = Some center1 ∧
      e ∈ selected K centroids a center1 ∧ index e = b) ∨
  (∃ center1 e, centroids !! b = Some center1 ∧
      e ∈ selected K centroids b center1 ∧ index e = a).
Proof.
  transitivity (upair a b ∈ link_pair <$> calculateKNN K centroids).
  - rewrite list_elem_of_fmap. split.
    + intros (l & Hl & Hsame). exists l. split; [|done].
      symmetry. by apply same_pair_link_pair in Hsame.
    + intros (l & Heq & Hl). exists l. split; [done|].
      by apply same_pair_link_pair.
  - rewrite calculateKNN_pairs. split.
    + intros (i & c & e & Hi & He & Heq).
      apply upair_eq in Heq as [[-> ->]|[-> ->]].
      * left. by exists c, e.
      * right. by exists c, e.
    + intros [(c & e & Hc & He & <-)|(c & e & Hc & He & <-)].
      * by exists a, c, e.
      * exists b, c, e. split; [done|]. split; [done|].
        apply upair_eq. tauto.
Qed.

(** The two ends of every link are positions of the centroid array. *)
Theorem knn_links_in_range (K : nat) (centroids : list Centroid) (link : Link) :
  link ∈ calculateKNN K centroids →
  source link < length centroids ∧ target link < length centroids.
Proof.
  intros Hl.
  assert (link_pair link ∈ link_pair <$> calculateKNN K centroids) as Hp
    by (apply list_elem_of_fmap; eauto).
  apply calculateKNN_pairs in Hp as (i & c & e & Hi & He & Heq).
  apply lookup_lt_Some in Hi. apply selected_index in He.
  apply upair_eq in Heq. lia.
Qed.

Lemma knn_links_in_range_witness :
  mkLink 2 1 ∈ calculateKNN 1 three_centroids ∧
  source (mkLink 2 1) < length three_centroids ∧
  target (mkLink 2 1) < length three_centroids.
Proof.
  assert (mkLink 2 1 ∈ calculateKNN 1 three_centroids) as Hl
    by (vm_compute; apply list_elem_of_In; simpl; tauto).
  split; [done|].
  exact (knn_links_in_range 1 three_centroids (mkLink 2 1) Hl).
Defined.

(** With no more centroids than [K], the loop for a centroid visits every
    entry of [distances], the centroid's own entry included. *)
Lemma selected_all_when_few (K : nat) (centroids : list Centroid) (i : nat)
    (center1 : Centroid) :
  length centroids ≤ K →
  selected K centroids i center1 ≡ₚ candidates centroids i center1.
Proof.
  intros Hk. unfold selected.
  rewrite take_ge by by rewrite distances_length.
  apply js_sort_perm.
Qed.

(** The defect behind the self-loops: with no more centroids than [K], every
    centroid is linked to itself. *)
Theorem knn_self_loop_when_few (K : nat) (centroids : list Centroid) (i : nat) :
  length centroids ≤ K → i < length centroids →
  ∃ link, link ∈ calculateKNN K centroids ∧ source link = i ∧ target link = i.
Proof.
  intros Hk Hi.
  destruct (lookup_lt_is_Some_2 centroids i Hi) as [c Hc].
  assert (upair i i ∈ link_pair <$> calculateKNN K centroids) as Hp.
  { apply calculateKNN_pairs.
    exists i, c, {| index := i; dist := infinity |}. split; [done|]. split; [|done].
    rewrite selected_all_when_few by done.
    unfold candidates. apply elem_of_lookup_imap.
    exists i, c. by rewrite Nat.eqb_refl. }
  apply list_elem_of_fmap in Hp as (l & Heq & Hl).
  exists l. split; [done|].
  apply upair_eq in Heq. lia.
Qed.

Lemma knn_self_loop_when_few_witness :
  length two_centroids ≤ 5 ∧ 1 < length two_centroids ∧
  ∃ link, link ∈ calculateKNN 5 two_centroids ∧ source link = 1 ∧ target link = 1.
Proof.
  split; [simpl; lia|]. split; [simpl; lia|].
  apply (knn_self_loop_when_few 5 two_centroids 1); simpl; lia.
Defined.

(** With no more centroids than [K], every two centroids are linked: the
    builder degrades to "all centroids are neighbours". *)
Theorem knn_complete_when_few (K : nat) (centroids : list Centroid) (a b : nat) :
  length centroids ≤ K → a < length centroids → b < length centroids →
  ∃ link, link ∈ calculateKNN K centroids ∧ same_pair link (mkLink a b).
Proof.
  intros Hk Ha Hb.
  destruct (lookup_lt_is_Some_2 centroids a Ha) as [ca Hca].
  destruct (lookup_lt_is_Some_2 centroids b Hb) as [cb Hcb].
  assert (upair a b ∈ link_pair <$> calculateKNN K centroids) as Hp.
  { apply calculateKNN_pairs.
    exists a, ca, {| index := b;
                     dist := if Nat.eqb a b then infinity
                             else distance (coords ca) (coords cb) |}.
    split; [done|]. split; [|done].
    rewrite selected_all_when_few by done.
    unfold candidates. apply elem_of_lookup_imap. by exists b, cb. }
  apply list_elem_of_fmap in Hp as (l & Heq & Hl).
  exists l. split; [done|]. by apply same_pair_link_pair.
Qed.

Lemma knn_complete_when_few_witness :
  length three_centroids ≤ 5 ∧ 0 < length three_centroids ∧
  2 < length three_centroids ∧
  ∃ link, link ∈ calculateKNN 5 three_centroids ∧ same_pair link (mkLink 0 2).
Proof.
  split; [simpl; lia|]. split; [simpl; lia|]. split; [simpl; lia|].
  apply (knn_complete_when_few 5 three_centroids 0 2); simpl; lia.
Defined.

(** C1, at the failing input.  With the configured [k = 5] and two centroids,
    [calculateKNN] stores three links, two of which join a centroid to
    itself. *)
Theorem knn_self_loops_two_centroids :
  calculateKNN 5 two_centroids = [mkLink 0 1; mkLink 0 0; mkLink 1 1].
Proof. vm_compute. reflexivity. Qed.

(** C2, at the failing input.  With [k = 5] and the three centroids of the
    scenario, the loop for each centroid visits all three entries, its own
    entry last, where the specification's neighbour set holds the other two;
    the result has a self-loop for each centroid. *)
Theorem knn_three_centroids_select_themselves :
  (index <$> selected 5 three_centroids 0 (centroid_at "Loop" 0 0) = [1; 2; 0] ∧
   index <$> selected 5 three_centroids 1 (centroid_at "Uptown" 1 0) = [0; 2; 1] ∧
   index <$> selected 5 three_centroids 2 (centroid_at "Hyde Park" 10 10) = [1; 0; 2]) ∧
  (index <$> k_nearest_others 5 three_centroids 0 (centroid_at "Loop" 0 0) = [1; 2] ∧
   index <$> k_nearest_others 5 three_centroids 1 (centroid_at "Uptown" 1 0) = [0; 2] ∧
   index <$> k_nearest_others 5 three_centroids 2 (centroid_at "Hyde Park" 10 10) = [1; 0]) ∧
  calculateKNN 5 three_centroids =
    [mkLink 0 1; mkLink 0 2; mkLink 0 0; mkLink 1 2; mkLink 1 1; mkLink 2 2].
Proof. vm_compute. repeat split. Qed.

(** C3, at the failing input.  With [k = 5] and the three centroids of the
    scenario, the result links the third centroid to itself, although it is
    not among its own nearest other centroids. *)
Theorem knn_link_outside_union :
  mkLink 2 2 ∈ calculateKNN 5 three_centroids ∧
  2 ∉ index <$> k_nearest_others 5 three_centroids 2 (centroid_at "Hyde Park" 10 10).
Proof.
  split.
  - apply list_elem_of_In. vm_compute. tauto.
  - rewrite list_elem_of_In. vm_compute. intuition lia.
Qed.

(** ** Binary64 arithmetic

    The sign of a difference, the order of the values that are no [NaN], and
    the distance [sqrt (dx * dx + dy * dy)], from the specification of the
    operations (the axioms of [FloatAxioms]). *)

Section FloatFacts.
Local Open Scope Z_scope.

Lemma SFcompare_rank (a b : spec_float) :
  a ≠ S754_nan → b ≠ S754_nan →
  SFcompare a b = Some (rank_compare (float_rank a) (float_rank b)).
Proof.
  intros Ha Hb.
  destruct a as [sa|sa| |sa ma ea], b as [sb|sb| |sb mb eb]; try done;
    try (by destruct sa, sb).
  destruct sa, sb; simpl; try done; unfold rank_compare; simpl.
  rewrite Z.compare_opp, (Z.compare_antisym ea eb).
  by destruct (Z.compare ea eb).
Qed.

(** Order facts read off the ranks. *)
Lemma rank_compare_antisym a b : rank_compare b a = CompOpp (rank_compare a b).
Proof.
  unfold rank_compare.
  rewrite (Z.compare_antisym a.1.1 b.1.1), (Z.compare_antisym a.1.2 b.1.2),
    (Z.compare_antisym a.2 b.2).
  by destruct (a.1.1 ?= b.1.1), (a.1.2 ?= b.1.2), (a.2 ?= b.2).
Qed.

Lemma rank_compare_trans a b c :
  rank_compare a b ≠ Gt → rank_compare b c ≠ Gt → rank_compare a c ≠ Gt.
Proof.
  unfold rank_compare.
  destruct (Z.compare_spec a.1.1 b.1.1), (Z.compare_spec b.1.1 c.1.1),
    (Z.compare_spec a.1.1 c.1.1); try done; try lia;
  destruct (Z.compare_spec a.1.2 b.1.2), (Z.compare_spec b.1.2 c.1.2),
    (Z.compare_spec a.1.2 c.1.2); try done; try lia;
  destruct (Z.compare_spec a.2 b.2), (Z.compare_spec b.2 c.2),
    (Z.compare_spec a.2 c.2); try done; try lia.
Qed.

(** *** Shifting a mantissa to the right *)

Lemma shr_1_m mrs : 0 ≤ shr_m mrs → shr_m (shr_1 mrs) = Z.div2 (shr_m mrs).
Proof. destruct mrs as [[|[p|p|]|p] r s]; simpl; (done || lia). Qed.

Lemma iter_shr_1_m n mrs :
  0 ≤ shr_m mrs →
  shr_m (SpecFloat.iter_pos shr_1 n mrs) = Z.shiftr (shr_m mrs) (Zpos n).
Proof.
  revert mrs; induction n as [n IH|n IH|]; intros mrs Hm; simpl SpecFloat.iter_pos.
  - assert (0 ≤ shr_m (shr_1 mrs)) as H1
      by (rewrite shr_1_m by done; apply Z.div2_nonneg; lia).
    assert (0 ≤ shr_m (SpecFloat.iter_pos shr_1 n (shr_1 mrs))) as H2
      by (rewrite IH by done; apply Z.shiftr_nonneg; lia).
    rewrite IH, IH, shr_1_m by done.
    rewrite Z.div2_spec, !Z.shiftr_shiftr by lia. f_equal. lia.
  - assert (0 ≤ shr_m (SpecFloat.iter_pos shr_1 n mrs)) as H2
      by (rewrite IH by done; apply Z.shiftr_nonneg; lia).
    rewrite IH, IH by done.
    rewrite !Z.shiftr_shiftr by lia. f_equal. lia.
  - rewrite shr_1_m by done. apply Z.div2_spec.
Qed.

Lemma digits2_size p : digits2_pos p = Pos.size p.
Proof. induction p; simpl; by rewrite ?IHp. Qed.

Lemma digits2_bounds p :
  2 ^ (Zpos (digits2_pos p) - 1) ≤ Zpos p < 2 ^ Zpos (digits2_pos p).
Proof.
  rewrite digits2_size. split.
  - pose proof (Pos.size_le p) as H.
    assert (2 ^ Zpos (Pos.size p) ≤ 2 * Zpos p) as H'.
    { change 2 with (Zpos 2). rewrite <- Pos2Z.inj_pow. 
      change (Zpos 2 * Zpos p) with (Zpos (p~0)). by apply Pos2Z.pos_le_pos. }
    replace (Zpos (Pos.size p)) with (Z.succ (Zpos (Pos.size p) - 1)) in H' by lia.
    rewrite Z.pow_succ_r in H' by lia. lia.
  - pose proof (Pos.size_gt p) as H.
    change 2 with (Zpos 2). rewrite <- Pos2Z.inj_pow. by apply Pos2Z.pos_lt_pos.
Qed.

Lemma shr_record_of_loc_m m l : shr_m (shr_record_of_loc m l) = m.
Proof. by destruct l as [|[]]. Qed.

Lemma shr_fexp_nonneg m e l :
  0 ≤ m → 0 ≤ shr_m (shr_fexp prec emax m e l).1.
Proof.
  intros Hm. unfold shr_fexp, shr.
  destruct (fexp prec emax (Zdigits2 m + e) - e) as [|n|n]; simpl.
  - by rewrite shr_record_of_loc_m.
  - rewrite iter_shr_1_m by (by rewrite shr_record_of_loc_m).
    rewrite shr_record_of_loc_m. by apply Z.shiftr_nonneg.
  - by rewrite shr_record_of_loc_m.
Qed.

Lemma shr_fexp_pos p e l :
  -1074 ≤ e →
  0 < shr_m (shr_fexp prec emax (Zpos p) e l).1 ∧
  -1074 ≤ (shr_fexp prec emax (Zpos p) e l).2.
Proof.
  intros He. unfold shr_fexp, shr.
  destruct (fexp prec emax (Zdigits2 (Zpos p) + e) - e) as [|n|n] eqn:Hn; simpl;
    rewrite ?shr_record_of_loc_m; try done.
  rewrite iter_shr_1_m, shr_record_of_loc_m by (by rewrite shr_record_of_loc_m).
  unfold fexp, SpecFloat.emin, prec, emax in Hn. simpl Zdigits2 in Hn.
  pose proof (digits2_bounds p) as [Hlo _].
  assert (Zpos n = Zpos (digits2_pos p) - 53) as Hn' by lia.
  split; [|lia].
  rewrite Z.shiftr_div_pow2 by lia.
  apply Z.div_str_pos. split; [by apply Z.pow_pos_nonneg|].
  etrans; [|apply Hlo]. apply Z.pow_le_mono_r; lia.
Qed.

Lemma round_nearest_even_ge m l : m ≤ round_nearest_even m l.
Proof. destruct l as [|[]]; simpl; try lia. destruct (Z.even m); lia. Qed.

Lemma binary_round_aux_signed s m e l :
  0 ≤ m → signed_as s (binary_round_aux prec emax s m e l).
Proof.
  intros Hm. unfold binary_round_aux.
  pose proof (shr_fexp_nonneg m e l Hm) as H1.
  destruct (shr_fexp prec emax m e l) as [mrs1 e1]. simpl in H1.
  pose proof (round_nearest_even_ge (shr_m mrs1) (loc_of_shr_record mrs1)) as H2.
  pose proof (shr_fexp_nonneg
    (round_nearest_even (shr_m mrs1) (loc_of_shr_record mrs1)) e1 loc_Exact) as H3.
  destruct (shr_fexp prec emax _ e1 loc_Exact) as [mrs2 e2]. simpl in H3.
  destruct (shr_m mrs2) as [|p|p]; [constructor| |lia].
  destruct (e2 <=? emax - prec); constructor.
Qed.

Lemma binary_round_aux_nonzero s p e l :
  -1074 ≤ e → nonzero_as s (binary_round_aux prec emax s (Zpos p) e l).
Proof.
  intros He. unfold binary_round_aux.
  pose proof (shr_fexp_pos p e l He) as [H1 He1].
  destruct (shr_fexp prec emax (Zpos p) e l) as [mrs1 e1]. simpl in H1, He1.
  pose proof (round_nearest_even_ge (shr_m mrs1) (loc_of_shr_record mrs1)) as H2.
  destruct (round_nearest_even (shr_m mrs1) (loc_of_shr_record mrs1))
    as [|p1|p1] eqn:Hr; [lia| |lia].
  pose proof (shr_fexp_pos p1 e1 loc_Exact He1) as [H3 _].
  destruct (shr_fexp prec emax (Zpos p1) e1 loc_Exact) as [mrs2 e2]. simpl in H3.
  destruct (shr_m mrs2) as [|p2|p2]; [lia| |lia].
  destruct (e2 <=? emax - prec); constructor.
Qed.

Lemma binary_round_nonzero s p e :
  -1074 ≤ e → nonzero_as s (binary_round prec emax s p e).
Proof.
  intros He. unfold binary_round, shl_align.
  set (e' := fexp prec emax (Zpos (digits2_pos p) + e)).
  assert (-1074 ≤ e') by (unfold e', fexp, SpecFloat.emin, prec, emax; lia).
  destruct (e' - e); by apply binary_round_aux_nonzero.
Qed.

Lemma binary_normalize_positive m e :
  -1074 ≤ e →
  SFltb (S754_zero false) (binary_normalize prec emax m e false) = (0 <? m).
Proof.
  intros He. destruct m as [|p|p]; simpl; [done|..].
  - by destruct (binary_round_nonzero false p e He).
  - by destruct (binary_round_nonzero true p e He).
Qed.

Lemma binary_normalize_not_nan m e :
  -1074 ≤ e → binary_normalize prec emax m e false ≠ S754_nan.
Proof.
  intros He. destruct m as [|p|p]; simpl; [done|..].
  - by destruct (binary_round_nonzero false p e He).
  - by destruct (binary_round_nonzero true p e He).
Qed.

(** *** Aligned mantissas of valid numbers *)

Lemma Pos_iter_xO m d : Zpos (Pos.iter xO m d) = Zpos m * 2 ^ Zpos d.
Proof.
  induction d as [|d IH] using Pos.peano_ind.
  - simpl. lia.
  - rewrite Pos.iter_succ, Pos2Z.inj_succ, Z.pow_succ_r by lia.
    rewrite Pos2Z.inj_xO, IH. lia.
Qed.

Lemma shl_align_value m e e' :
  e' ≤ e → Zpos (shl_align m e e').1 = Zpos m * 2 ^ (e - e').
Proof.
  intros He. unfold shl_align.
  destruct (e' - e) as [|d|d] eqn:Hd; simpl.
  - replace (e - e') with 0 by lia. lia.
  - lia.
  - rewrite Pos_iter_xO. f_equal. f_equal. lia.
Qed.

Lemma bounded_inv m e :
  bounded prec emax m e = true →
  -1074 ≤ e ∧ Zpos (digits2_pos m) ≤ 53 ∧ (-1074 < e → Zpos (digits2_pos m) = 53).
Proof.
  unfold bounded, canonical_mantissa, fexp, SpecFloat.emin, prec, emax.
  rewrite andb_true_iff, Z.eqb_eq. lia.
Qed.

(** The mantissa of the number with the greater exponent, aligned, is the
    greater one. *)
Lemma aligned_lt m1 e1 m2 e2 :
  bounded prec emax m1 e1 = true → bounded prec emax m2 e2 = true →
  e1 < e2 → Zpos m1 < Zpos m2 * 2 ^ (e2 - e1).
Proof.
  intros H1 H2 He.
  apply bounded_inv in H1 as (He1 & Hd1 & _), H2 as (_ & _ & Hd2).
  pose proof (digits2_bounds m1) as [_ Hhi].
  pose proof (digits2_bounds m2) as [Hlo _].
  rewrite Hd2 in Hlo by lia.
  assert (2 ^ Zpos (digits2_pos m1) ≤ 2 ^ 53) by (apply Z.pow_le_mono_r; lia).
  assert (2 ^ 1 ≤ 2 ^ (e2 - e1)) by (apply Z.pow_le_mono_r; lia).
  change (2 ^ 53) with (2 ^ (53 - 1) * 2 ^ 1) in *.
  nia.
Qed.

Lemma SFcompare_aligned s1 m1 e1 s2 m2 e2 :
  bounded prec emax m1 e1 = true → bounded prec emax m2 e2 = true →
  SFcompare (S754_finite s1 m1 e1) (S754_finite s2 m2 e2) =
    Some (Z.compare (aligned s1 m1 e1 (Z.min e1 e2))
                    (aligned s2 m2 e2 (Z.min e1 e2))).
Proof.
  intros H1 H2. unfold aligned.
  rewrite !shl_align_value by lia.
  simpl SFcompare. rewrite Pos.compare_cont_spec. simpl Pos.switch_Eq.
  destruct (Z.compare_spec e1 e2) as [->|He|He].
  - rewrite Z.min_id, Z.sub_diag, !Z.mul_1_r.
    destruct s1, s2; simpl; try done; by destruct (m1 ?= m2)%positive.
  - pose proof (aligned_lt m1 e1 m2 e2 H1 H2 He).
    rewrite Z.min_l, Z.sub_diag, Z.mul_1_r by lia.
    destruct s1, s2; unfold cond_Zopp; cbv iota; f_equal; symmetry.
    + apply Z.compare_gt_iff. lia.
    + apply Z.compare_lt_iff. lia.
    + apply Z.compare_gt_iff. lia.
    + apply Z.compare_lt_iff. lia.
  - pose proof (aligned_lt m2 e2 m1 e1 H2 H1 He).
    rewrite Z.min_r, Z.sub_diag, Z.mul_1_r by lia.
    destruct s1, s2; unfold cond_Zopp; cbv iota; f_equal; symmetry.
    + apply Z.compare_lt_iff. lia.
    + apply Z.compare_lt_iff. lia.
    + apply Z.compare_gt_iff. lia.
    + apply Z.compare_gt_iff. lia.
Qed.

(** *** The sign of a difference *)

Lemma SFsub_positive (a b : spec_float) :
  valid_binary a = true → valid_binary b = true →
  a ≠ S754_nan → b ≠ S754_nan →
  SFltb (S754_zero false) (SF64sub a b) = SFltb b a.
Proof.
  intros Va Vb Ha Hb.
  destruct a as [sa|sa| |sa ma ea], b as [sb|sb| |sb mb eb]; try done;
    try (by destruct sa, sb).
  simpl in Va, Vb.
  unfold SF64sub, SFsub, SFltb.
  rewrite (SFcompare_aligned sb mb eb sa ma ea Vb Va), (Z.min_comm eb ea).
  fold (aligned sa ma ea (Z.min ea eb)). fold (aligned sb mb eb (Z.min ea eb)).
  pose proof (bounded_inv _ _ Va) as (? & _). pose proof (bounded_inv _ _ Vb) as (? & _).
  pose proof (binary_normalize_positive
    (aligned sa ma ea (Z.min ea eb) - aligned sb mb eb (Z.min ea eb))
    (Z.min ea eb)) as Hn.
  unfold SFltb in Hn. rewrite Hn by lia.
  destruct (Z.compare_spec (aligned sb mb eb (Z.min ea eb))
                           (aligned sa ma ea (Z.min ea eb))); lia.
Qed.

Lemma Prim2SF_nan (x : float) : Prim2SF x = S754_nan ↔ is_nan x = true.
Proof.
  unfold Prim2SF. destruct (is_nan x); [done|].
  split; [|done].
  destruct (is_zero x); [done|]. destruct (is_infinity x); [done|].
  destruct (Z.frexp x) as [r e].
  destruct (shr_fexp _ _ _ _ _) as [mrs e'].
  by destruct (shr_m mrs).
Qed.

Lemma Prim2SF_not_nan (x : float) : is_nan x = false → Prim2SF x ≠ S754_nan.
Proof. intros Hx Hn. apply Prim2SF_nan in Hn. congruence. Qed.

Lemma sub_positive (x y : float) :
  is_nan x = false → is_nan y = false →
  (0 <? x - y)%float = (y <? x)%float.
Proof.
  intros Hx Hy. rewrite !FloatAxioms.ltb_spec, FloatAxioms.sub_spec.
  change (Prim2SF 0) with (S754_zero false).
  apply SFsub_positive; auto using Prim2SF_valid, Prim2SF_not_nan.
Qed.

(** *** The order of the numbers that are not [NaN] *)

Section Order.
Context (x y z : float).
Hypothesis Hx : is_nan x = false.
Hypothesis Hy : is_nan y = false.
Hypothesis Hz : is_nan z = false.

Lemma ltb_rank :
  (x <? y)%float =
    match rank_compare (float_rank (Prim2SF x)) (float_rank (Prim2SF y)) with
    | Lt => true | _ => false end.
Proof.
  rewrite FloatAxioms.ltb_spec. unfold SFltb.
  by rewrite SFcompare_rank by by apply Prim2SF_not_nan.
Qed.

Lemma leb_rank :
  (x <=? y)%float =
    match rank_compare (float_rank (Prim2SF x)) (float_rank (Prim2SF y)) with
    | Gt => false | _ => true end.
Proof.
  rewrite FloatAxioms.leb_spec. unfold SFleb.
  rewrite SFcompare_rank by by apply Prim2SF_not_nan.
  by destruct (rank_compare _ _).
Qed.

Lemma eqb_rank :
  (x =? y)%float =
    match rank_compare (float_rank (Prim2SF x)) (float_rank (Prim2SF y)) with
    | Eq => true | _ => false end.
Proof.
  rewrite FloatAxioms.eqb_spec. unfold SFeqb.
  by rewrite SFcompare_rank by by apply Prim2SF_not_nan.
Qed.
End Order.

Lemma ltb_asym (x y : float) :
  is_nan x = false → is_nan y = false →
  (x <? y)%float = true → (y <? x)%float = false.
Proof.
  intros Hx Hy. rewrite !ltb_rank by done.
  rewrite (rank_compare_antisym (float_rank (Prim2SF x))).
  by destruct (rank_compare _ _).
Qed.

Lemma not_ltb_leb (x y : float) :
  is_nan x = false → is_nan y = false →
  (y <? x)%float = false → (x <=? y)%float = true.
Proof.
  intros Hx Hy. rewrite ltb_rank, leb_rank by done.
  rewrite (rank_compare_antisym (float_rank (Prim2SF x))).
  by destruct (rank_compare _ _).
Qed.

Lemma not_ltb_trans (x y z : float) :
  is_nan x = false → is_nan y = false → is_nan z = false →
  (y <? x)%float = false → (z <? y)%float = false → (z <? x)%float = false.
Proof.
  intros Hx Hy Hz. rewrite !ltb_rank by done.
  pose proof (rank_compare_trans (float_rank (Prim2SF x))
    (float_rank (Prim2SF y)) (float_rank (Prim2SF z))) as Ht.
  rewrite (rank_compare_antisym (float_rank (Prim2SF x)) (float_rank (Prim2SF y))),
    (rank_compare_antisym (float_rank (Prim2SF y)) (float_rank (Prim2SF z))),
    (rank_compare_antisym (float_rank (Prim2SF x)) (float_rank (Prim2SF z))).
  destruct (rank_compare (float_rank (Prim2SF x)) (float_rank (Prim2SF y))),
    (rank_compare (float_rank (Prim2SF y)) (float_rank (Prim2SF z))),
    (rank_compare (float_rank (Prim2SF x)) (float_rank (Prim2SF z)));
    simpl; try done; exfalso; by apply Ht.
Qed.

Lemma eqb_not_ltb (x y : float) :
  is_nan x = false → is_nan y = false →
  (x =? y)%float = true → (x <? y)%float = false.
Proof.
  intros Hx Hy. rewrite eqb_rank, ltb_rank by done.
  by destruct (rank_compare _ _).
Qed.

(** *** Distances between points with finite coordinates *)

Lemma SFnn_not_nan a : SFnn a → a ≠ S754_nan.
Proof. by destruct a. Qed.

Lemma is_nan_false_Prim2SF (x : float) : Prim2SF x ≠ S754_nan → is_nan x = false.
Proof.
  intros Hx. destruct (is_nan x) eqn:Hn; [|done].
  by apply Prim2SF_nan in Hn.
Qed.

Lemma is_finite_Prim2SF (x : float) :
  is_finite x = true →
  match Prim2SF x with
  | S754_zero _ | S754_finite _ _ _ => True
  | _ => False
  end.
Proof.
  unfold is_finite. rewrite negb_true_iff, orb_false_iff. intros [Hn Hi].
  unfold Prim2SF. rewrite Hn, Hi.
  destruct (is_zero x); [done|].
  destruct (Z.frexp x) as [r e].
  destruct (shr_fexp _ _ _ _ _) as [mrs e'].
  by destruct (shr_m mrs).
Qed.

Lemma sub_not_nan (x y : float) :
  is_finite x = true → is_nan y = false → is_nan (x - y) = false.
Proof.
  intros Hx Hy. apply is_nan_false_Prim2SF. rewrite FloatAxioms.sub_spec.
  apply is_finite_Prim2SF in Hx. apply Prim2SF_not_nan in Hy.
  pose proof (Prim2SF_valid x) as Vx. pose proof (Prim2SF_valid y) as Vy.
  destruct (Prim2SF x) as [sx|sx| |sx mx ex], (Prim2SF y) as [sy|sy| |sy my ey];
    try done; try (by destruct sx, sy).
  simpl in Vx, Vy. unfold SF64sub, SFsub.
  apply binary_normalize_not_nan.
  apply bounded_inv in Vx as (? & _), Vy as (? & _). lia.
Qed.

Lemma square_nn (d : float) : is_nan d = false → SFnn (Prim2SF (d * d)).
Proof.
  intros Hd. apply Prim2SF_not_nan in Hd. rewrite FloatAxioms.mul_spec.
  destruct (Prim2SF d) as [s|s| |s m e]; try done; try (by destruct s).
  unfold SF64mul, SFmul.
  pose proof (binary_round_aux_signed (xorb s s) (Zpos (m * m)) (e + e) loc_Exact)
    as Hs.
  rewrite xorb_nilpotent in *. by destruct Hs.
Qed.

Lemma add_nn (u v : float) :
  SFnn (Prim2SF u) → SFnn (Prim2SF v) → SFnn (Prim2SF (u + v)).
Proof.
  intros Hu Hv. rewrite FloatAxioms.add_spec.
  pose proof (Prim2SF_valid u) as Vu. pose proof (Prim2SF_valid v) as Vv.
  destruct (Prim2SF u) as [su|su| |su mu eu], (Prim2SF v) as [sv|sv| |sv mv ev];
    try done; try (by destruct su, sv); try (by destruct su); try (by destruct sv).
  destruct su, sv; try done.
  simpl in Vu, Vv. unfold SF64add, SFadd. simpl cond_Zopp.
  apply bounded_inv in Vu as (? & _), Vv as (? & _).
  simpl binary_normalize.
  by destruct (binary_round_nonzero false
    ((shl_align mu eu (Z.min eu ev)).1 + (shl_align mv ev (Z.min eu ev)).1)%positive
    (Z.min eu ev)); [lia|..].
Qed.

Lemma sqrt_nn (u : float) : SFnn (Prim2SF u) → SFnn (Prim2SF (sqrt u)).
Proof.
  intros Hu. rewrite FloatAxioms.sqrt_spec.
  destruct (Prim2SF u) as [s|s| |s m e]; try done; [by destruct s|].
  destruct s; [done|]. unfold SF64sqrt, SFsqrt, SFsqrt_core_binary.
  match goal with |- context [Z.sqrtrem ?n] =>
    pose proof (Z.sqrtrem_sqrt n) as Hq; pose proof (Z.sqrt_nonneg n) as Hnn;
    destruct (Z.sqrtrem n) as [q r] end.
  cbn [fst] in Hq. rewrite <- Hq in Hnn.
  match goal with |- SFnn (binary_round_aux _ _ _ ?q' ?e' ?l') =>
    by destruct (binary_round_aux_signed false q' e' l'); [lia|..] end.
Qed.

Lemma sqrt_sum_squares_not_nan (x1 y1 x2 y2 : float) :
  is_finite x1 = true → is_finite y1 = true →
  is_nan x2 = false → is_nan y2 = false →
  is_nan (sqrt ((x1 - x2) * (x1 - x2) + (y1 - y2) * (y1 - y2))) = false.
Proof.
  intros. apply is_nan_false_Prim2SF, SFnn_not_nan, sqrt_nn, add_nn;
    by apply square_nn, sub_not_nan.
Qed.

Lemma infinity_minus_finite (d : float) :
  is_finite d = true → (0 <? infinity - d)%float = true ∧
                        (0 <? d - infinity)%float = false.
Proof.
  intros Hd. rewrite !FloatAxioms.ltb_spec, !FloatAxioms.sub_spec.
  change (Prim2SF 0) with (S754_zero false).
  change (Prim2SF infinity) with (S754_infinity false).
  apply is_finite_Prim2SF in Hd.
  by destruct (Prim2SF d) as [s|s| |s m e].
Qed.


(** *** Distances from a point with an infinite coordinate *)

Lemma not_finite_Prim2SF (x : float) :
  is_finite x = false → SFany_inf_or_nan (Prim2SF x).
Proof.
  unfold is_finite. rewrite negb_false_iff, orb_true_iff. intros [Hn|Hi].
  - apply Prim2SF_nan in Hn. by rewrite Hn.
  - unfold is_infinity in Hi.
    rewrite FloatAxioms.eqb_spec, FloatAxioms.abs_spec in Hi.
    change (Prim2SF infinity) with (S754_infinity false) in Hi.
    by destruct (Prim2SF x) as [s|s| |s m e].
Qed.

Lemma sub_infinite (x y : float) :
  SFany_inf_or_nan (Prim2SF x) → SFany_inf_or_nan (Prim2SF (x - y)).
Proof.
  rewrite FloatAxioms.sub_spec.
  destruct (Prim2SF x) as [s|s| |s m e]; try done;
    destruct (Prim2SF y) as [s'|s'| |s' m' e']; try done.
  by destruct s, s'.
Qed.

Lemma square_infinite (d : float) :
  SFany_inf_or_nan (Prim2SF d) → SFinf_or_nan (Prim2SF (d * d)).
Proof.
  rewrite FloatAxioms.mul_spec.
  destruct (Prim2SF d) as [s|s| |s m e]; try done. by destruct s.
Qed.

Lemma add_infinite_l (u v : float) :
  SFinf_or_nan (Prim2SF u) → SFinf_or_nan (Prim2SF (u + v)).
Proof.
  rewrite FloatAxioms.add_spec.
  destruct (Prim2SF u) as [s|s| |s m e]; try done;
    destruct (Prim2SF v) as [s'|s'| |s' m' e']; try done; by destruct s, s'.
Qed.

Lemma add_infinite_r (u v : float) :
  SFinf_or_nan (Prim2SF v) → SFinf_or_nan (Prim2SF (u + v)).
Proof.
  rewrite FloatAxioms.add_spec.
  destruct (Prim2SF v) as [s'|s'| |s' m' e']; try done;
    destruct (Prim2SF u) as [s|s| |s m e]; try done; by destruct s, s'.
Qed.

Lemma sqrt_infinite (u : float) :
  SFinf_or_nan (Prim2SF u) → SFinf_or_nan (Prim2SF (sqrt u)).
Proof.
  rewrite FloatAxioms.sqrt_spec.
  destruct (Prim2SF u) as [s|s| |s m e]; try done. by destruct s.
Qed.

Lemma sqrt_sum_squares_infinite (x1 y1 x2 y2 : float) :
  is_finite x1 && is_finite y1 = false →
  SFinf_or_nan (Prim2SF (sqrt ((x1 - x2) * (x1 - x2) + (y1 - y2) * (y1 - y2)))).
Proof.
  rewrite andb_false_iff. intros [H|H]; apply sqrt_infinite.
  - by apply add_infinite_l, square_infinite, sub_infinite, not_finite_Prim2SF.
  - by apply add_infinite_r, square_infinite, sub_infinite, not_finite_Prim2SF.
Qed.

Lemma infinite_never_less (x y : float) :
  SFinf_or_nan (Prim2SF x) → SFinf_or_nan (Prim2SF y) →
  (0 <? x - y)%float = false ∧ (y <? x)%float = false.
Proof.
  rewrite !FloatAxioms.ltb_spec, FloatAxioms.sub_spec.
  change (Prim2SF 0) with (S754_zero false).
  destruct (Prim2SF x) as [s|s| |s m e]; try done;
    destruct (Prim2SF y) as [s'|s'| |s' m' e']; try done; by destruct s, s'.
Qed.

End FloatFacts.

(** ** The order of the candidates *)

Lemma imap_sorted_by_index (centroids : list Centroid)
    (f : nat → Centroid → Entry) (n : nat) :
  (∀ j c, index (f j c) = n + j) →
  StronglySorted (λ a b, index a < index b) (imap f centroids).
Proof.
  revert f n; induction centroids as [|x l IH]; intros f n Hf; [constructor|].
  rewrite imap_cons. constructor.
  - apply (IH _ (S n)). intros j c. simpl. rewrite Hf. lia.
  - apply Forall_forall. intros e He.
    apply elem_of_lookup_imap in He as (j & c & -> & _).
    simpl. rewrite !Hf. lia.
Qed.

Lemma candidates_sorted_by_index centroids i center1 :
  StronglySorted (λ a b, index a < index b) (candidates centroids i center1).
Proof. by apply (imap_sorted_by_index _ _ 0). Qed.

Lemma candidates_dist centroids i center1 e :
  e ∈ candidates centroids i center1 →
  ∃ center2, centroids !! index e = Some center2 ∧
    dist e = if Nat.eqb i (index e) then infinity
             else distance (coords center1) (coords center2).
Proof.
  unfold candidates. rewrite elem_of_lookup_imap.
  intros (j & c & -> & Hj). simpl. eauto.
Qed.


(** The distance from a point with finite coordinates to a point without
    [NaN] coordinate is no [NaN]; the distance from a point with a coordinate
    that is not finite is [Infinity] or [NaN]. *)
Lemma distance_not_nan (p1 p2 : Position) :
  PrimFloat.is_finite p1.1 = true → PrimFloat.is_finite p1.2 = true →
  isNaN p2.1 = false → isNaN p2.2 = false →
  isNaN (distance p1 p2) = false.
Proof. apply sqrt_sum_squares_not_nan. Qed.

Lemma distance_from_infinite (p1 p2 : Position) :
  PrimFloat.is_finite p1.1 && PrimFloat.is_finite p1.2 = false →
  SFinf_or_nan (Prim2SF (distance p1 p2)).
Proof. apply sqrt_sum_squares_infinite. Qed.


Lemma eqb_true_not_ltb (x y : float) :
  (x =? y)%float = true → (x <? y)%float = false.
Proof.
  rewrite FloatAxioms.eqb_spec, FloatAxioms.ltb_spec. unfold SFeqb, SFltb.
  by destruct (SFcompare _ _) as [[]|].
Qed.

Lemma candidates_comparable centroids i center1 :
  Forall (λ c, centroid_kept c = true) centroids →
  comparable_dists (candidates centroids i center1).
Proof.
  intros Hkept. destruct (finite_coords center1) eqn:Hfin.
  - left. intros e (c & Hc & ->)%candidates_dist.
    destruct (Nat.eqb i (index e)); [reflexivity|].
    apply andb_true_iff in Hfin as [? ?].
    rewrite Forall_forall in Hkept.
    apply list_elem_of_lookup_2, Hkept in Hc. unfold centroid_kept in Hc.
    rewrite andb_true_iff, !negb_true_iff in Hc. destruct Hc as [? ?].
    by apply distance_not_nan.
  - right. intros e (c & Hc & ->)%candidates_dist.
    destruct (Nat.eqb i (index e)); [exact I|].
    by apply distance_from_infinite.
Qed.

(** On entries whose distances can be compared, [a.dist - b.dist] is
    positive exactly when [b.dist < a.dist], and the comparator is
    consistent. *)
Lemma by_dist_order (l : list Entry) :
  comparable_dists l →
  asymmetric_on by_dist l ∧ transitive_on by_dist l ∧
  ∀ a b, a ∈ l → b ∈ l → sort_gt by_dist a b = (dist b <? dist a)%float.
Proof.
  intros [Hnn|Hinf].
  - assert (∀ a b, a ∈ l → b ∈ l →
              sort_gt by_dist a b = (dist b <? dist a)%float) as Hgt
      by (intros a b Ha Hb; apply sub_positive; by apply Hnn).
    split; [|split; [|done]].
    + intros a b Ha Hb. rewrite !Hgt by done. apply ltb_asym; by apply Hnn.
    + intros a b c Ha Hb Hc. rewrite !Hgt by done.
      apply not_ltb_trans; by apply Hnn.
  - assert (∀ a b, a ∈ l → b ∈ l →
              sort_gt by_dist a b = false ∧ (dist b <? dist a)%float = false)
      as Hnever by (intros a b Ha Hb; apply infinite_never_less; by apply Hinf).
    split; [|split].
    + intros a b Ha Hb _. by apply Hnever.
    + intros a b c Ha Hb Hc _ _. by apply Hnever.
    + intros a b Ha Hb. destruct (Hnever a b Ha Hb) as [-> ->]. done.
Qed.

Lemma distances_sorted centroids i center1 p q a b :
  comparable_dists (candidates centroids i center1) →
  p < q →
  distances centroids i center1 !! p = Some a →
  distances centroids i center1 !! q = Some b →
  (dist b <? dist a)%float = false ∧
  ((dist a =? dist b)%float = true → index a < index b).
Proof.
  intros Hcmp Hpq Ha Hb.
  destruct (by_dist_order _ Hcmp) as (Hasym & Htrans & Hgt).
  assert (stands_before by_dist index a b) as [Hab Hba].
  { eapply (StronglySorted_lookup_lt (stands_before by_dist index)); [|done..].
    apply js_sort_sorted; [done..|]. apply candidates_sorted_by_index. }
  assert (a ∈ candidates centroids i center1) as Hina
    by (eapply js_sort_elem_of, list_elem_of_lookup_2, Ha).
  assert (b ∈ candidates centroids i center1) as Hinb
    by (eapply js_sort_elem_of, list_elem_of_lookup_2, Hb).
  rewrite Hgt in Hab, Hba by done.
  split; [done|]. intros Heq. by apply Hba, eqb_true_not_ltb.
Qed.

(** C8.  For centroids without [NaN] coordinate, as [calculateCentroids]
    leaves them, the sorted array [distances] of a centroid holds the
    entries of the candidates: one for each centroid, with the planar
    Euclidean distance [sqrt (dx * dx + dy * dy)] to it, [Infinity] for the
    centroid itself.  The entries stand in ascending order of distance: no
    entry has a smaller distance than an entry before it, so [a.dist <=
    b.dist] for [a] before [b] when neither is [NaN], and no distance is
    [NaN] when the coordinates of the centroid are finite.  Two entries with
    equal distances stand in the order of their positions in the centroid
    array.  The array is a function of the input alone. *)
Theorem knn_sort_ascending_stable (centroids : list Centroid) (i : nat)
    (center1 : Centroid) :
  Forall (λ c, centroid_kept c = true) centroids →
  distances centroids i center1 ≡ₚ candidates centroids i center1 ∧
  (∀ e, e ∈ distances centroids i center1 →
     ∃ center2, centroids !! index e = Some center2 ∧
       dist e =
         if Nat.eqb i (index e) then infinity
         else PrimFloat.sqrt
                (((coords center1).1 - (coords center2).1) *
                 ((coords center1).1 - (coords center2).1) +
                 ((coords center1).2 - (coords center2).2) *
                 ((coords center1).2 - (coords center2).2))%float) ∧
  (finite_coords center1 = true →
   ∀ e, e ∈ distances centroids i center1 → isNaN (dist e) = false) ∧
  ∀ p q a b, p < q →
    distances centroids i center1 !! p = Some a →
    distances centroids i center1 !! q = Some b →
    (dist b <? dist a)%float = false ∧
    (isNaN (dist a) = false → isNaN (dist b) = false →
     (dist a <=? dist b)%float = true) ∧
    ((dist a =? dist b)%float = true → index a < index b).
Proof.
  intros Hkept. split; [apply js_sort_perm|]. split; [|split].
  - intros e He. apply js_sort_elem_of in He. by apply candidates_dist.
  - intros Hfin e He. apply js_sort_elem_of in He.
    apply candidates_dist in He as (c & Hc & ->).
    destruct (Nat.eqb i (index e)); [reflexivity|].
    apply andb_true_iff in Hfin as [? ?].
    rewrite Forall_forall in Hkept.
    apply list_elem_of_lookup_2, Hkept in Hc. unfold centroid_kept in Hc.
    rewrite andb_true_iff, !negb_true_iff in Hc. destruct Hc as [? ?].
    by apply distance_not_nan.
  - intros p q a b Hpq Ha Hb.
    destruct (distances_sorted centroids i center1 p q a b) as [Hlt Htie];
      [by apply candidates_comparable|done..|].
    split; [done|]. split; [|done].
    intros Hna Hnb. by apply not_ltb_leb.
Qed.

Lemma knn_sort_ascending_stable_witness :
  Forall (λ c, centroid_kept c = true) scattered_centroids ∧
  index <$> distances scattered_centroids 0 (centroid_at "Loop" 0 0) =
    [2; 3; 4; 1; 0] ∧
  (distances scattered_centroids 0 (centroid_at "Loop" 0 0)
     ≡ₚ candidates scattered_centroids 0 (centroid_at "Loop" 0 0) ∧
   (∀ e, e ∈ distances scattered_centroids 0 (centroid_at "Loop" 0 0) →
      ∃ center2, scattered_centroids !! index e = Some center2 ∧
        dist e =
          if Nat.eqb 0 (index e) then infinity
          else PrimFloat.sqrt
                 (((coords (centroid_at "Loop" 0 0)).1 - (coords center2).1) *
                  ((coords (centroid_at "Loop" 0 0)).1 - (coords center2).1) +
                  ((coords (centroid_at "Loop" 0 0)).2 - (coords center2).2) *
                  ((coords (centroid_at "Loop" 0 0)).2 - (coords center2).2))%float) ∧
   (finite_coords (centroid_at "Loop" 0 0) = true →
    ∀ e, e ∈ distances scattered_centroids 0 (centroid_at "Loop" 0 0) →
      isNaN (dist e) = false) ∧
   ∀ p q a b, p < q →
     distances scattered_centroids 0 (centroid_at "Loop" 0 0) !! p = Some a →
     distances scattered_centroids 0 (centroid_at "Loop" 0 0) !! q = Some b →
     (dist b <? dist a)%float = false ∧
     (isNaN (dist a) = false → isNaN (dist b) = false →
      (dist a <=? dist b)%float = true) ∧
     ((dist a =? dist b)%float = true → index a < index b)).
Proof.
  assert (Forall (λ c, centroid_kept c = true) scattered_centroids) as Hkept
    by (repeat constructor).
  split; [exact Hkept|]. split; [reflexivity|].
  exact (knn_sort_ascending_stable scattered_centroids 0
           (centroid_at "Loop" 0 0) Hkept).
Defined.

(** The distance from a centroid with finite coordinates to a centroid that
    [calculateCentroids] keeps is no [NaN], even when it overflows or the
    other centroid has an infinite coordinate. *)
Theorem distance_to_kept_centroid_not_nan (center1 center2 : Centroid) :
  finite_coords center1 = true → centroid_kept center2 = true →
  isNaN (distance (coords center1) (coords center2)) = false.
Proof.
  unfold finite_coords, centroid_kept.
  rewrite !andb_true_iff, !negb_true_iff. intros [? ?] [? ?].
  by apply distance_not_nan.
Qed.

Lemma distance_to_kept_centroid_not_nan_witness :
  finite_coords (centroid_at "Loop" 0x1p600 0) = true ∧
  centroid_kept (centroid_at "Uptown" infinity 1) = true ∧
  distance (coords (centroid_at "Loop" 0x1p600 0))
           (coords (centroid_at "Loop" 0 0)) = infinity ∧
  isNaN (distance (coords (centroid_at "Loop" 0x1p600 0))
                  (coords (centroid_at "Uptown" infinity 1))) = false.
Proof.
  split; [reflexivity|]. split; [reflexivity|]. split; [reflexivity|].
  apply (distance_to_kept_centroid_not_nan (centroid_at "Loop" 0x1p600 0)
           (centroid_at "Uptown" infinity 1)); reflexivity.
Defined.

(** For two entries whose distances are no [NaN], the comparator
    [a.dist - b.dist] is positive exactly when [b.dist < a.dist]: the
    difference of two distinct binary64 numbers is never rounded to zero, and
    [Infinity - Infinity], which is [NaN], counts as not positive. *)
Theorem by_dist_positive_iff_farther (a b : Entry) :
  isNaN (dist a) = false → isNaN (dist b) = false →
  sort_gt by_dist a b = (dist b <? dist a)%float.
Proof. apply sub_positive. Qed.

Lemma by_dist_positive_iff_farther_witness :
  isNaN (dist {| index := 0; dist := 0x1.0000000000001p-1022 |}) = false ∧
  isNaN (dist {| index := 1; dist := 0x1p-1022 |}) = false ∧
  sort_gt by_dist {| index := 0; dist := 0x1.0000000000001p-1022 |}
                  {| index := 1; dist := 0x1p-1022 |} = true ∧
  sort_gt by_dist {| index := 0; dist := 0x1.0000000000001p-1022 |}
                  {| index := 1; dist := 0x1p-1022 |} =
    (0x1p-1022 <? 0x1.0000000000001p-1022)%float.
Proof.
  split; [reflexivity|]. split; [reflexivity|]. split; [reflexivity|].
  apply (by_dist_positive_iff_farther
           {| index := 0; dist := 0x1.0000000000001p-1022 |}
           {| index := 1; dist := 0x1p-1022 |}); reflexivity.
Defined.

(** ** The nearest other centroid *)





(** ** The centroids *)

(** C5, as the code has it.  [calculateCentroids] keeps, in input order, the
    centroid of every valid neighbourhood whose two coordinates are not
    [NaN], and drops the others: the features of the result are the features
    that pass the test, each centroid is the one computed for its feature,
    and no coordinate of the result is [NaN]. *)
Theorem centroids_kept_unless_nan (pathCentroid : Feature → Position)
    (valid : list Feature) :
  feature <$> calculateCentroids pathCentroid valid =
    List.filter (λ f, negb (isNaN (pathCentroid f).1) &&
                      negb (isNaN (pathCentroid f).2)) valid ∧
  Forall (λ d, d = make_centroid pathCentroid (feature d) ∧
               isNaN (coords d).1 = false ∧ isNaN (coords d).2 = false)
         (calculateCentroids pathCentroid valid).
Proof.
  unfold calculateCentroids. split.
  - induction valid as [|f valid IH]; [done|].
    cbn [map List.filter].
    change (centroid_kept (make_centroid pathCentroid f))
      with (negb (isNaN (pathCentroid f).1) && negb (isNaN (pathCentroid f).2)).
    destruct (negb (isNaN (pathCentroid f).1) && negb (isNaN (pathCentroid f).2));
      [rewrite fmap_cons; cbn [feature make_centroid]|]; by rewrite IH.
  - apply Forall_forall. intros d Hd.
    apply list_elem_of_In, filter_In in Hd as [Hd Hkept].
    apply in_map_iff in Hd as (f & <- & _).
    split; [done|].
    unfold centroid_kept in Hkept.
    by rewrite andb_true_iff, !negb_true_iff in Hkept.
Qed.

(** C5 fails as stated: a centroid with an infinite coordinate passes the
    test [!isNaN(...)] and is kept. *)
Lemma infinite_centroid_is_kept :
  ∃ d, d ∈ calculateCentroids centroid_at_infinity [sample_feature] ∧
       coords d = (infinity, 0%float) ∧ finite_coords d = false.
Proof.
  exists (make_centroid centroid_at_infinity sample_feature).
  split; [|split; reflexivity].
  apply list_elem_of_In. vm_compute. tauto.
Qed.

(** ** The spatial join *)

Section JoinFacts.
Import SpatialJoin.
Context (Params : Type) (project : Position → Params → Position).
Context (pointInPolygon : Position → Polygon → bool).
Local Abbreviation contains := (SpatialJoin.contains Params project pointInPolygon).
Local Abbreviation assignRegion :=
  (SpatialJoin.assignRegion Params project pointInPolygon).

(** First match wins. *)
Lemma assignRegion_Some params polygons pt r :
  regionId (assignRegion params polygons pt) = Some r ↔
    ∃ n poly, polygons !! n = Some poly ∧ id poly = r ∧
      contains params pt poly ∧
      ∀ m q, polygons !! m = Some q → m < n → ¬ contains params pt q.
Proof.
  unfold SpatialJoin.assignRegion. simpl. split.
  - intros Hr. apply fmap_Some in Hr as ([n poly] & Hfind & ->).
    apply list_find_Some in Hfind as (Hn & Hc & Hfirst).
    by exists n, poly.
  - intros (n & poly & Hn & <- & Hc & Hfirst).
    apply fmap_Some. exists (n, poly). split; [|done].
    by apply list_find_Some.
Qed.

Lemma assignRegion_None params polygons pt :
  regionId (assignRegion params polygons pt) = None ↔
    ∀ poly, poly ∈ polygons → ¬ contains params pt poly.
Proof.
  unfold SpatialJoin.assignRegion. simpl.
  rewrite fmap_None, list_find_None, Forall_forall. done.
Qed.
End JoinFacts.

(** C4.  For polygons of which no two contain the projected point, the
    join gives the point the identifier of the valid polygon that contains
    it: the first one in input order, and the only one; a point that no valid
    polygon contains is left without identifier.  The coordinate of the point
    is unchanged. *)
Theorem join_assigns_containing_polygon (Params : Type)
    (project : Position → Params → Position)
    (pointInPolygon : Position → SpatialJoin.Polygon → bool)
    (params : Params) (polygons : list SpatialJoin.Polygon)
    (pt : SpatialJoin.Point) :
  (∀ m n p q, polygons !! m = Some p → polygons !! n = Some q →
     SpatialJoin.contains Params project pointInPolygon params pt p →
     SpatialJoin.contains Params project pointInPolygon params pt q → m = n) →
  let labelled_pt :=
    SpatialJoin.assignRegion Params project pointInPolygon params polygons pt in
  SpatialJoin.coordinate labelled_pt = SpatialJoin.coordinate pt ∧
  match SpatialJoin.regionId labelled_pt with
  | Some r =>
      ∃ n poly, polygons !! n = Some poly ∧ SpatialJoin.id poly = r ∧
        SpatialJoin.contains Params project pointInPolygon params pt poly ∧
        (∀ m q, polygons !! m = Some q → m < n →
           ¬ SpatialJoin.contains Params project pointInPolygon params pt q) ∧
        (∀ q, q ∈ polygons →
           SpatialJoin.contains Params project pointInPolygon params pt q →
           SpatialJoin.id q = r)
  | None =>
      ∀ poly, poly ∈ polygons →
        ¬ SpatialJoin.contains Params project pointInPolygon params pt poly
  end.
Proof.
  intros Hdisjoint labelled_pt. split; [done|].
  destruct (SpatialJoin.regionId labelled_pt) as [r|] eqn:Hr.
  - apply assignRegion_Some in Hr as (n & poly & Hn & Hid & Hc & Hfirst).
    exists n, poly. do 4 (split; [done|]).
    intros q Hq Hcq. apply list_elem_of_lookup in Hq as [m Hm].
    pose proof (Hdisjoint m n q poly Hm Hn Hcq Hc) as ->.
    congruence.
  - by apply assignRegion_None.
Qed.

Lemma join_assigns_containing_polygon_witness :
  (∀ m n p q, sample_polygons !! m = Some p → sample_polygons !! n = Some q →
     SpatialJoin.contains unit no_projection SpatialJoin.even_odd tt sample_point p →
     SpatialJoin.contains unit no_projection SpatialJoin.even_odd tt sample_point q →
     m = n) ∧
  SpatialJoin.regionId
    (SpatialJoin.assignRegion unit no_projection SpatialJoin.even_odd tt
       sample_polygons sample_point) = Some "A" ∧
  let labelled_pt :=
    SpatialJoin.assignRegion unit no_projection SpatialJoin.even_odd tt
      sample_polygons sample_point in
  SpatialJoin.coordinate labelled_pt = SpatialJoin.coordinate sample_point ∧
  match SpatialJoin.regionId labelled_pt with
  | Some r =>
      ∃ n poly, sample_polygons !! n = Some poly ∧ SpatialJoin.id poly = r ∧
        SpatialJoin.contains unit no_projection SpatialJoin.even_odd tt sample_point poly ∧
        (∀ m q, sample_polygons !! m = Some q → m < n →
           ¬ SpatialJoin.contains unit no_projection SpatialJoin.even_odd tt sample_point q) ∧
        (∀ q, q ∈ sample_polygons →
           SpatialJoin.contains unit no_projection SpatialJoin.even_odd tt sample_point q →
           SpatialJoin.id q = r)
  | None =>
      ∀ poly, poly ∈ sample_polygons →
        ¬ SpatialJoin.contains unit no_projection SpatialJoin.even_odd tt sample_point poly
  end.
Proof.
  assert (∀ m n p q, sample_polygons !! m = Some p → sample_polygons !! n = Some q →
     SpatialJoin.contains unit no_projection SpatialJoin.even_odd tt sample_point p →
     SpatialJoin.contains unit no_projection SpatialJoin.even_odd tt sample_point q →
     m = n) as Hdisjoint.
  { intros m n p q Hm Hn [Hvp Hcp] [Hvq Hcq].
    destruct m as [|[|[|m]]]; simpl in Hm; inversion Hm; subst p;
      try (vm_compute in Hvp; discriminate);
      try (vm_compute in Hcp; discriminate);
      destruct n as [|[|[|n]]]; simpl in Hn; inversion Hn; subst q;
      try (vm_compute in Hvq; discriminate);
      try (vm_compute in Hcq; discriminate); reflexivity. }
  split; [exact Hdisjoint|]. split; [reflexivity|].
  exact (join_assigns_containing_polygon unit no_projection SpatialJoin.even_odd tt
           sample_polygons sample_point Hdisjoint).
Defined.

(** ** The entries visited and the nearest other centroids *)

Lemma filter_imap_ext {A B} (P : B → bool) (f g : nat → A → B) (l : list A) :
  (∀ j x, P (f j x) = P (g j x)) →
  (∀ j x, P (f j x) = true → f j x = g j x) →
  List.filter P (imap f l) = List.filter P (imap g l).
Proof.
  revert f g; induction l as [|x l IH]; intros f g HP Heq; [done|].
  rewrite !imap_cons. cbn [List.filter].
  rewrite <- (HP 0 x). destruct (P (f 0 x)) eqn:HPf.
  - rewrite (Heq 0 x HPf). f_equal. apply IH; intros j y; [apply HP|apply Heq].
  - apply IH; intros j y; [apply HP|apply Heq].
Qed.

Lemma filter_all {A} (P : A → bool) (l : list A) :
  (∀ x, x ∈ l → P x = true) → List.filter P l = l.
Proof.
  intros HP. apply forallb_filter_id, forallb_forall.
  intros x Hx. by apply HP, list_elem_of_In.
Qed.

Section Others.
Context (centroids : list Centroid) (i : nat) (center1 : Centroid).
Local Abbreviation own_entry := {| index := i; dist := infinity |}.
Local Abbreviation not_own := (λ e : Entry, negb (Nat.eqb (index e) i)).

Lemma candidates_lookup_index j e :
  candidates centroids i center1 !! j = Some e → index e = j.
Proof.
  unfold candidates. rewrite list_lookup_imap.
  destruct (centroids !! j); simpl; [|done]. by intros [= <-].
Qed.

Lemma candidates_lookup_own :
  i < length centroids → candidates centroids i center1 !! i = Some own_entry.
Proof.
  intros Hi. destruct (lookup_lt_is_Some_2 centroids i Hi) as [c Hc].
  unfold candidates. by rewrite list_lookup_imap, Hc, Nat.eqb_refl.
Qed.

Lemma other_candidates_filter :
  other_candidates centroids i center1 =
    List.filter not_own (candidates centroids i center1).
Proof.
  unfold other_candidates, candidates. apply filter_imap_ext; simpl; [done|].
  intros j x Hj. apply negb_true_iff, Nat.eqb_neq in Hj.
  destruct (Nat.eqb_spec i j); [congruence|done].
Qed.

Lemma other_candidates_split :
  i < length centroids →
  other_candidates centroids i center1 =
    take i (candidates centroids i center1) ++
    drop (S i) (candidates centroids i center1).
Proof.
  intros Hi. rewrite other_candidates_filter.
  rewrite <- (take_drop_middle _ _ _ (candidates_lookup_own Hi)) at 1.
  rewrite List.filter_app. cbn [List.filter]. rewrite Nat.eqb_refl. simpl.
  rewrite !filter_all; [done|..].
  - intros e He. apply list_elem_of_lookup in He as [j Hj].
    rewrite lookup_drop in Hj. apply candidates_lookup_index in Hj.
    apply negb_true_iff, Nat.eqb_neq. lia.
  - intros e He. apply list_elem_of_lookup in He as [j Hj].
    apply lookup_take_Some in Hj as [Hj Hlt].
    apply candidates_lookup_index in Hj.
    apply negb_true_iff, Nat.eqb_neq. lia.
Qed.

Lemma other_candidates_length :
  i < length centroids →
  S (length (other_candidates centroids i center1)) = length centroids.
Proof.
  intros Hi. rewrite other_candidates_split by done.
  rewrite length_app, length_take, length_drop, candidates_length. lia.
Qed.

(** When every other centroid is nearer than the own entry, the own entry is
    the last of [distances], after the other candidates in sorted order. *)
Lemma distances_own_entry_last :
  i < length centroids → others_nearer centroids i center1 = true →
  distances centroids i center1 =
    js_sort by_dist (other_candidates centroids i center1) ++ [own_entry].
Proof.
  intros Hi Hnear. unfold distances.
  unfold others_nearer in Hnear. rewrite forallb_forall in Hnear.
  rewrite other_candidates_split in * by done.
  rewrite <- (take_drop_middle _ _ _ (candidates_lookup_own Hi)) at 1.
  apply js_sort_last.
  - intros x Hx. apply negb_true_iff.
    refine (proj2 (proj1 (andb_true_iff _ _) (Hnear x _))).
    apply list_elem_of_In, elem_of_app. by left.
  - intros y Hy.
    refine (proj1 (proj1 (andb_true_iff _ _) (Hnear y _))).
    apply list_elem_of_In, elem_of_app. by right.
Qed.
End Others.

Lemma selected_without_own_entry (K : nat) (centroids : list Centroid) (i : nat)
    (center1 : Centroid) :
  i < length centroids → K < length centroids →
  others_nearer centroids i center1 = true →
  selected K centroids i center1 = k_nearest_others K centroids i center1.
Proof.
  intros Hi Hk Hnear. unfold selected, k_nearest_others.
  rewrite distances_own_entry_last by done.
  apply take_app_le.
  rewrite js_sort_length.
  pose proof (other_candidates_length centroids i center1 Hi). lia.
Qed.

(** With more than [K] centroids, all of them nearer to the centroid than
    its own entry, the loop visits the [K] nearest other centroids of the
    specification. *)
Theorem selected_k_nearest_others (K : nat) (centroids : list Centroid) (i : nat)
    (center1 : Centroid) :
  centroids !! i = Some center1 → K < length centroids →
  others_nearer centroids i center1 = true →
  selected K centroids i center1 = k_nearest_others K centroids i center1.
Proof.
  intros Hc Hk Hnear. apply lookup_lt_Some in Hc.
  by apply selected_without_own_entry.
Qed.

Lemma selected_k_nearest_others_witness :
  three_centroids !! 2 = Some (centroid_at "Hyde Park" 10 10) ∧
  1 < length three_centroids ∧
  others_nearer three_centroids 2 (centroid_at "Hyde Park" 10 10) = true ∧
  index <$> selected 1 three_centroids 2 (centroid_at "Hyde Park" 10 10) = [1] ∧
  selected 1 three_centroids 2 (centroid_at "Hyde Park" 10 10) =
    k_nearest_others 1 three_centroids 2 (centroid_at "Hyde Park" 10 10).
Proof.
  split; [reflexivity|]. split; [simpl; lia|]. split; [reflexivity|].
  split; [reflexivity|].
  apply (selected_k_nearest_others 1 three_centroids 2 (centroid_at "Hyde Park" 10 10));
    [reflexivity | simpl; lia | reflexivity].
Defined.

(** With more than [K] centroids, each nearer to every other one than the
    own entry of that one, no link of the result joins a centroid to
    itself. *)
Theorem knn_no_self_loop_when_many (K : nat) (centroids : list Centroid)
    (link : Link) :
  K < length centroids → all_others_nearer centroids = true →
  link ∈ calculateKNN K centroids → source link ≠ target link.
Proof.
  intros Hk Hnear Hl.
  assert (link_pair link ∈ link_pair <$> calculateKNN K centroids) as Hp
    by (apply list_elem_of_fmap; eauto).
  apply calculateKNN_pairs in Hp as (i & c & e & Hi & He & Heq).
  unfold all_others_nearer in Hnear. rewrite forallb_forall in Hnear.
  assert (others_nearer centroids i c = true) as Hnear_i.
  { apply (Hnear (i, c)), list_elem_of_In. by apply elem_of_positions. }
  rewrite selected_without_own_entry in He
    by (done || by eapply lookup_lt_Some).
  unfold k_nearest_others in He. apply subseteq_take in He.
  rewrite js_sort_elem_of, other_candidates_filter in He.
  apply list_elem_of_In, filter_In in He as [_ Hne].
  apply negb_true_iff, Nat.eqb_neq in Hne.
  apply upair_eq in Heq. lia.
Qed.

Lemma knn_no_self_loop_when_many_witness :
  1 < length three_centroids ∧ all_others_nearer three_centroids = true ∧
  mkLink 2 1 ∈ calculateKNN 1 three_centroids ∧
  source (mkLink 2 1) ≠ target (mkLink 2 1).
Proof.
  assert (mkLink 2 1 ∈ calculateKNN 1 three_centroids) as Hl
    by (vm_compute; apply list_elem_of_In; simpl; tauto).
  split; [simpl; lia|]. split; [reflexivity|]. split; [done|].
  apply (knn_no_self_loop_when_many 1 three_centroids (mkLink 2 1));
    [simpl; lia | reflexivity | done].
Defined.

(** ** The size and the shape of the link list *)

Section LinkList.
Context (K : nat) (centroids : list Centroid).
Implicit Types (knnLinks : list Link) (e : Entry) (ics : list (nat * Centroid)).
Local Abbreviation knn_loop := (foldl (λ links '(i, center1),
    foldl (push_link i) links (selected K centroids i center1))).

Lemma selected_length i center1 :
  length (selected K centroids i center1) = K `min` length centroids.
Proof. unfold selected. by rewrite length_take, distances_length. Qed.

Lemma push_link_length i knnLinks e :
  length (push_link i knnLinks e) ≤ S (length knnLinks).
Proof.
  unfold push_link. destruct (link_exists _ _ _); [lia|].
  rewrite length_app. simpl. lia.
Qed.

Lemma push_links_length i (sel : list Entry) knnLinks :
  length (foldl (push_link i) knnLinks sel) ≤ length knnLinks + length sel.
Proof.
  revert knnLinks; induction sel as [|e sel IH]; intros links; simpl; [lia|].
  pose proof (IH (push_link i links e)).
  pose proof (push_link_length i links e). lia.
Qed.

Lemma knn_loop_length ics knnLinks :
  length (knn_loop knnLinks ics) ≤ length knnLinks + K * length ics.
Proof.
  revert knnLinks; induction ics as [|[i c] ics IH]; intros links; simpl; [lia|].
  pose proof (IH (foldl (push_link i) links (selected K centroids i c))).
  pose proof (push_links_length i (selected K centroids i c) links).
  pose proof (selected_length i c). lia.
Qed.

(** The links already stored stay where they are. *)
Lemma push_link_prefix i knnLinks e : knnLinks `prefix_of` push_link i knnLinks e.
Proof.
  unfold push_link. destruct (link_exists _ _ _); [done|].
  by apply prefix_app_r.
Qed.

Lemma push_links_prefix i (sel : list Entry) knnLinks :
  knnLinks `prefix_of` foldl (push_link i) knnLinks sel.
Proof.
  revert knnLinks; induction sel as [|e sel IH]; intros links; simpl; [done|].
  etrans; [apply push_link_prefix|apply IH].
Qed.

Lemma knn_loop_prefix ics knnLinks : knnLinks `prefix_of` knn_loop knnLinks ics.
Proof.
  revert knnLinks; induction ics as [|[i c] ics IH]; intros links; simpl; [done|].
  etrans; [apply push_links_prefix|apply IH].
Qed.

(** The links that start at [j] grow by one at most, and only in the turn of
    the centroid at [j]. *)
Lemma push_link_from j i knnLinks e :
  length (links_from j (push_link i knnLinks e)) ≤
    length (links_from j knnLinks) + (if Nat.eqb i j then 1 else 0).
Proof.
  unfold push_link, links_from. destruct (link_exists _ _ _); [lia|].
  rewrite List.filter_app, length_app. simpl.
  destruct (Nat.eqb i j); simpl; lia.
Qed.

Lemma push_links_from j i (sel : list Entry) knnLinks :
  length (links_from j (foldl (push_link i) knnLinks sel)) ≤
    length (links_from j knnLinks) + (if Nat.eqb i j then length sel else 0).
Proof.
  revert knnLinks; induction sel as [|e sel IH]; intros links; simpl.
  - destruct (Nat.eqb i j); lia.
  - pose proof (IH (push_link i links e)).
    pose proof (push_link_from j i links e).
    destruct (Nat.eqb i j); lia.
Qed.

Lemma knn_loop_from_other j ics knnLinks :
  j ∉ ics.*1 →
  length (links_from j (knn_loop knnLinks ics)) ≤ length (links_from j knnLinks).
Proof.
  revert knnLinks; induction ics as [|[i c] ics IH]; intros links Hj; simpl;
    [done|].
  rewrite fmap_cons, not_elem_of_cons in Hj. destruct Hj as [Hne Hj].
  etrans; [by apply IH|].
  pose proof (push_links_from j i (selected K centroids i c) links).
  destruct (Nat.eqb_spec i j); [by subst|lia].
Qed.

Lemma knn_loop_from j ics knnLinks :
  NoDup ics.*1 →
  length (links_from j (knn_loop knnLinks ics)) ≤
    length (links_from j knnLinks) + K.
Proof.
  revert knnLinks; induction ics as [|[i c] ics IH]; intros links Hnd; simpl;
    [lia|].
  rewrite fmap_cons in Hnd. apply NoDup_cons in Hnd as [Hi Hnd].
  pose proof (push_links_from j i (selected K centroids i c) links) as Hstep.
  pose proof (selected_length i c).
  destruct (Nat.eqb_spec i j) as [->|Hne].
  - etrans; [by apply knn_loop_from_other|]. simpl in *. lia.
  - etrans; [by apply IH|]. lia.
Qed.

Lemma positions_NoDup : NoDup (imap pair centroids).*1.
Proof.
  apply NoDup_alt. intros i j x.
  rewrite !list_lookup_fmap, !list_lookup_imap.
  destruct (centroids !! i), (centroids !! j); simpl; congruence.
Qed.

(** With [K] at least 1, every centroid is an end of a link. *)
Lemma knn_endpoint i :
  1 ≤ K → i < length centroids →
  ∃ link, link ∈ calculateKNN K centroids ∧ (source link = i ∨ target link = i).
Proof.
  intros Hk Hi.
  destruct (lookup_lt_is_Some_2 centroids i Hi) as [c Hc].
  destruct (lookup_lt_is_Some_2 (distances centroids i c) 0) as [e He].
  { rewrite distances_length. lia. }
  assert (upair i (index e) ∈ link_pair <$> calculateKNN K centroids) as Hp.
  { apply calculateKNN_pairs. exists i, c, e. split; [done|]. split; [|done].
    unfold selected. apply elem_of_take. exists 0. split; [done|lia]. }
  apply list_elem_of_fmap in Hp as (l & Heq & Hl).
  exists l. split; [done|].
  apply upair_eq in Heq. lia.
Qed.

(** A turn whose pairs are all linked already stores nothing. *)
Lemma push_links_nothing_new i (sel : list Entry) knnLinks :
  (∀ e, e ∈ sel → upair i (index e) ∈ link_pair <$> knnLinks) →
  foldl (push_link i) knnLinks sel = knnLinks.
Proof.
  induction sel as [|e sel IH]; intros Hall; simpl; [done|].
  assert (push_link i knnLinks e = knnLinks) as ->.
  { unfold push_link.
    rewrite (proj2 (link_exists_true knnLinks i (index e))); [done|].
    apply Hall. by left. }
  apply IH. intros e' He'. apply Hall. by right.
Qed.

Lemma knn_loop_nothing_new ics knnLinks :
  (∀ i c e, (i, c) ∈ ics → e ∈ selected K centroids i c →
     upair i (index e) ∈ link_pair <$> knnLinks) →
  knn_loop knnLinks ics = knnLinks.
Proof.
  induction ics as [|[i c] ics IH]; intros Hall; simpl; [done|].
  rewrite push_links_nothing_new.
  - apply IH. intros i' c' e Hin. apply Hall. by right.
  - intros e He. apply (Hall i c); [by left|done].
Qed.

Lemma push_links_for_source i center1 (sel : list Entry) knnLinks :
  centroids !! i = Some center1 →
  (∀ e, e ∈ sel → e ∈ selected K centroids i center1) →
  Forall (pushed_for_source K centroids) knnLinks →
  Forall (pushed_for_source K centroids) (foldl (push_link i) knnLinks sel).
Proof.
  intros Hi. revert knnLinks; induction sel as [|e sel IH];
    intros links Hsel Hall; simpl; [done|].
  apply IH; [intros e' He'; apply Hsel; by right|].
  unfold push_link. destruct (link_exists _ _ _); [done|].
  apply Forall_app. split; [done|]. apply Forall_singleton.
  exists center1, e. simpl. split; [done|]. split; [|done].
  apply Hsel. by left.
Qed.

Lemma knn_loop_for_source ics knnLinks :
  (∀ i c, (i, c) ∈ ics → centroids !! i = Some c) →
  Forall (pushed_for_source K centroids) knnLinks →
  Forall (pushed_for_source K centroids) (knn_loop knnLinks ics).
Proof.
  revert knnLinks; induction ics as [|[i c] ics IH]; intros links Hics Hall;
    simpl; [done|].
  apply IH; [intros i' c' Hin; apply Hics; by right|].
  apply (push_links_for_source i c); [apply Hics; by left|done..].
Qed.
End LinkList.

(** [calculateKNN] stores at most [K] links for each centroid. *)
Theorem knn_links_bounded (K : nat) (centroids : list Centroid) :
  length (calculateKNN K centroids) ≤ K * length centroids.
Proof.
  unfold calculateKNN, calculateKNN_from.
  pose proof (knn_loop_length K centroids (imap pair centroids) []) as Hlen.
  rewrite length_imap in Hlen. simpl in Hlen. lia.
Qed.

(** No centroid is the source of more than [K] links. *)
Theorem knn_out_degree_bounded (K : nat) (centroids : list Centroid) (i : nat) :
  length (links_from i (calculateKNN K centroids)) ≤ K.
Proof.
  unfold calculateKNN, calculateKNN_from.
  pose proof (knn_loop_from K centroids i (imap pair centroids) []
                (positions_NoDup centroids)) as Hlen.
  simpl in Hlen. lia.
Qed.

(** The result is empty only for [K = 0] or for no centroid: one centroid
    alone already gives a link. *)
Theorem knn_empty_iff (K : nat) (centroids : list Centroid) :
  calculateKNN K centroids = [] ↔ K = 0 ∨ centroids = [].
Proof.
  split.
  - intros Hnil. destruct K as [|K]; [by left|]. right.
    destruct centroids as [|c cs]; [done|].
    destruct (knn_endpoint (S K) (c :: cs) 0) as (l & Hl & _);
      [lia | simpl; lia |].
    rewrite Hnil in Hl. by apply not_elem_of_nil in Hl.
  - intros [-> | ->]; [|done].
    apply (knn_loop_nothing_new 0 centroids).
    intros i c e _ He. unfold selected in He. rewrite take_0 in He.
    by apply not_elem_of_nil in He.
Qed.

(** With [K] at least 1, the first link goes from the first centroid to the
    first entry of its sorted array. *)
Theorem knn_first_link (K : nat) (centroids : list Centroid)
    (center1 : Centroid) (e : Entry) :
  1 ≤ K → centroids !! 0 = Some center1 →
  distances centroids 0 center1 !! 0 = Some e →
  calculateKNN K centroids !! 0 = Some {| source := 0; target := index e |}.
Proof.
  intros Hk Hc He.
  destruct centroids as [|c cs]; [done|]. injection Hc as ->.
  unfold calculateKNN, calculateKNN_from.
  rewrite imap_cons. cbn [foldl].
  eapply prefix_lookup_Some; [|apply knn_loop_prefix].
  assert (selected K (center1 :: cs) 0 center1 =
            e :: take (K - 1) (drop 1 (distances (center1 :: cs) 0 center1)))
    as ->.
  { unfold selected. destruct K as [|K]; [lia|].
    destruct (distances (center1 :: cs) 0 center1) as [|e' l]; [done|].
    injection He as ->. simpl. by rewrite Nat.sub_0_r, drop_0. }
  cbn [foldl]. eapply prefix_lookup_Some; [|apply push_links_prefix].
  done.
Qed.

Lemma knn_first_link_witness :
  1 ≤ 5 ∧ three_centroids !! 0 = Some (centroid_at "Loop" 0 0) ∧
  distances three_centroids 0 (centroid_at "Loop" 0 0) !! 0 =
    Some {| index := 1; dist := 1 |} ∧
  calculateKNN 5 three_centroids !! 0 = Some {| source := 0; target := 1 |}.
Proof.
  split; [lia|]. split; [reflexivity|]. split; [reflexivity|].
  apply (knn_first_link 5 three_centroids (centroid_at "Loop" 0 0)
           {| index := 1; dist := 1 |}); [lia|reflexivity..].
Defined.

(** [calculateKNN] keeps the links already stored in [knnLinks], in their
    order, at the head of the result. *)
Theorem knn_keeps_stored_links (K : nat) (centroids : list Centroid)
    (knnLinks : list Link) :
  knnLinks `prefix_of` calculateKNN_from K centroids knnLinks.
Proof. apply knn_loop_prefix. Qed.

(** A second call of [calculateKNN] on the same centroids stores nothing
    more. *)
Theorem knn_second_call_stores_nothing (K : nat) (centroids : list Centroid) :
  calculateKNN_from K centroids (calculateKNN K centroids) =
    calculateKNN K centroids.
Proof.
  apply knn_loop_nothing_new. intros i c e Hin He.
  apply calculateKNN_pairs. exists i, c, e.
  by rewrite <- elem_of_positions.
Qed.

(** The target of every link is an entry the loop visited for its source. *)
Theorem knn_target_visited_for_source (K : nat) (centroids : list Centroid)
    (link : Link) :
  link ∈ calculateKNN K centroids →
  ∃ center1 e, centroids !! source link = Some center1 ∧
    e ∈ selected K centroids (source link) center1 ∧ index e = target link.
Proof.
  intros Hl.
  assert (Forall (pushed_for_source K centroids) (calculateKNN K centroids))
    as Hall.
  { apply knn_loop_for_source; [|constructor].
    intros i c. by rewrite elem_of_positions. }
  rewrite Forall_forall in Hall. by apply Hall.
Qed.

Lemma knn_target_visited_for_source_witness :
  mkLink 2 1 ∈ calculateKNN 1 three_centroids ∧
  ∃ center1 e, three_centroids !! source (mkLink 2 1) = Some center1 ∧
    e ∈ selected 1 three_centroids (source (mkLink 2 1)) center1 ∧
    index e = target (mkLink 2 1).
Proof.
  assert (mkLink 2 1 ∈ calculateKNN 1 three_centroids) as Hl
    by (vm_compute; apply list_elem_of_In; simpl; tauto).
  split; [done|].
  exact (knn_target_visited_for_source 1 three_centroids (mkLink 2 1) Hl).
Defined.

Lemma size_list_to_set_le (l : list nat) :
  size (list_to_set l : gset nat) ≤ length l.
Proof.
  induction l as [|x l IH].
  { rewrite list_to_set_nil, size_empty. done. }
  rewrite list_to_set_cons, size_union_alt, size_singleton. simpl.
  assert (size (list_to_set l ∖ {[x]} : gset nat) ≤
            size (list_to_set l : gset nat)) as Hle.
  { apply subseteq_size. intros y Hy. by apply elem_of_difference in Hy as [Hy _]. }
  lia.
Qed.

Lemma link_ends_size (knnLinks : list Link) :
  size (link_ends knnLinks) ≤ 2 * length knnLinks.
Proof.
  unfold link_ends. etrans; [apply size_list_to_set_le|].
  induction knnLinks as [|l links IH]; [simpl; lia|].
  rewrite bind_cons, length_app, length_cons.
  remember (length (links ≫= λ link, [source link; target link])) as n.
  simpl. lia.
Qed.

(** With [K] at least 1, there is at least one link for every two
    centroids. *)
Theorem knn_links_at_least_half (K : nat) (centroids : list Centroid) :
  1 ≤ K → length centroids ≤ 2 * length (calculateKNN K centroids).
Proof.
  intros Hk.
  etrans; [|apply link_ends_size].
  rewrite <- (size_set_seq (C:=gset nat) 0 (length centroids)).
  apply subseteq_size. intros i Hi. apply elem_of_set_seq in Hi.
  destruct (knn_endpoint K centroids i) as (l & Hl & Hends); [done|lia|].
  unfold link_ends. apply elem_of_list_to_set, list_elem_of_bind.
  exists l. split; [|done].
  rewrite !elem_of_cons. destruct Hends as [<-|<-]; tauto.
Qed.

Lemma knn_links_at_least_half_witness :
  1 ≤ 1 ∧ length three_centroids ≤ 2 * length (calculateKNN 1 three_centroids).
Proof.
  split; [lia|]. apply (knn_links_at_least_half 1 three_centroids). lia.
Defined.

(** ** More on the region counts *)

Lemma filter_length_Permutation {A} (f : A → bool) (l1 l2 : list A) :
  l1 ≡ₚ l2 → length (List.filter f l1) = length (List.filter f l2).
Proof.
  induction 1 as [|x l1 l2 _ IH|x y l|l1 l2 l3 _ IH1 _ IH2]; simpl.
  - done.
  - destruct (f x); simpl; by rewrite IH.
  - by destruct (f x), (f y).
  - by rewrite IH1.
Qed.

Lemma valid_key_in_region_keys (neighborhoods : list Feature) (d : Feature) :
  d ∈ validNeighborhoods neighborhoods →
  truthy (PRI_NEIGH d) = true ∧ d ∈ neighborhoods ∧
  toKey (PRI_NEIGH d) ∈ region_keys (validNeighborhoods neighborhoods).
Proof.
  intros Hd. split; [|split].
  - by apply list_elem_of_In, filter_In in Hd as [_ Ht].
  - apply list_elem_of_In, filter_In in Hd as [Hd _]. by apply list_elem_of_In.
  - unfold region_keys. apply list_elem_of_fmap. by exists d.
Qed.

Lemma processCrimeCounts_None_ext (valid valid' crimes crimes' : list Feature) :
  (∀ r, r ∈ region_keys valid ↔ r ∈ region_keys valid') →
  crimes ≡ₚ crimes' →
  processCrimeCounts valid crimes = None →
  processCrimeCounts valid' crimes' = None.
Proof.
  intros Hkeys Hperm. rewrite !processCrimeCounts_None.
  intros (Hown & crime & Hin & Ht). split; [by apply Hkeys|].
  exists crime. split; [|done]. by rewrite <- Hperm.
Qed.

(** The counts, and whether the call raises, depend neither on the order of
    the crime records nor on the order or the repetition of the
    neighbourhoods. *)
Theorem counts_independent_of_order (valid valid' crimes crimes' : list Feature) :
  (∀ r, r ∈ region_keys valid ↔ r ∈ region_keys valid') →
  crimes ≡ₚ crimes' →
  processCrimeCounts valid crimes = processCrimeCounts valid' crimes'.
Proof.
  intros Hkeys Hperm.
  destruct (processCrimeCounts valid crimes) as [m|] eqn:H1,
           (processCrimeCounts valid' crimes') as [m'|] eqn:H2.
  - f_equal. apply map_eq. intros r.
    rewrite (processCrimeCounts_lookup _ _ _ r H1).
    rewrite (processCrimeCounts_lookup _ _ _ r H2).
    rewrite (filter_length_Permutation _ _ _ Hperm).
    apply (f_equal (λ b : bool, if b then _ else _)).
    apply bool_decide_ext. by rewrite (Hkeys r).
  - apply (processCrimeCounts_None_ext valid' valid crimes' crimes) in H2;
      [congruence| |done].
    intros r. by rewrite (Hkeys r).
  - apply (processCrimeCounts_None_ext valid valid' crimes crimes') in H1;
      [congruence|done|done].
  - done.
Qed.

Lemma counts_independent_of_order_witness :
  (∀ r, r ∈ region_keys (validNeighborhoods sample_neighborhoods) ↔
        r ∈ region_keys (reverse (validNeighborhoods sample_neighborhoods))) ∧
  sample_crimes ≡ₚ reverse sample_crimes ∧
  processCrimeCounts (validNeighborhoods sample_neighborhoods) sample_crimes =
    processCrimeCounts (reverse (validNeighborhoods sample_neighborhoods))
      (reverse sample_crimes).
Proof.
  assert (∀ r, r ∈ region_keys (validNeighborhoods sample_neighborhoods) ↔
               r ∈ region_keys (reverse (validNeighborhoods sample_neighborhoods)))
    as Hkeys.
  { intros r. unfold region_keys. by rewrite fmap_reverse, elem_of_reverse. }
  assert (sample_crimes ≡ₚ reverse sample_crimes) as Hperm
    by (symmetry; apply reverse_Permutation).
  split; [done|]. split; [done|].
  exact (counts_independent_of_order _ _ _ _ Hkeys Hperm).
Defined.

Lemma init_counts_again (valid crimes : list Feature) (counts : gmap string nat) :
  processCrimeCounts valid crimes = Some counts →
  init_counts valid counts = init_counts valid ∅.
Proof.
  intros H. apply map_eq. intros r.
  rewrite init_counts_lookup, init_counts_empty_lookup.
  rewrite (processCrimeCounts_lookup _ _ _ r H).
  destruct (decide (r ∈ region_keys valid ∧ r ≠ "__proto__")) as [Hr|Hr].
  - rewrite (bool_decide_eq_true_2 _ Hr).
    rewrite bool_decide_eq_true_2; [done|]. tauto.
  - rewrite (bool_decide_eq_false_2 _ Hr).
    rewrite bool_decide_eq_false_2; [done|].
    intros [Hin [Hne|[n Hn]]]; [tauto|done].
Qed.

(** A second call of [processCrimeCounts] on the same data, after a first
    call that completed, completes with the same counts: the entries are
    reset before the records are counted. *)
Theorem counts_second_call_same (valid crimes : list Feature)
    (counts : gmap string nat) :
  processCrimeCounts valid crimes = Some counts →
  processCrimeCounts_from valid crimes counts = Some counts.
Proof.
  intros H. unfold processCrimeCounts_from.
  rewrite (init_counts_again _ _ _ H). exact H.
Qed.

Lemma counts_second_call_same_witness :
  ∃ counts,
    processCrimeCounts (validNeighborhoods sample_neighborhoods) sample_crimes =
      Some counts ∧
    counts !! "Loop" = Some 2 ∧
    processCrimeCounts_from (validNeighborhoods sample_neighborhoods)
      sample_crimes counts = Some counts.
Proof.
  eexists. split; [reflexivity|]. split; [reflexivity|].
  apply (counts_second_call_same (validNeighborhoods sample_neighborhoods)
           sample_crimes).
  reflexivity.
Defined.

(** An entry already in [crimeCounts] whose key is no valid neighbourhood is
    not reset.  When no own property [hasOwnProperty] is in the way, neither
    in [crimeCounts] nor among the valid neighbourhoods, the call completes
    and the entry goes on counting the records labelled with its key. *)
Theorem counts_stale_entry_kept (valid crimes : list Feature)
    (crimeCounts : gmap string nat) (r : string) (n : nat) :
  crimeCounts !! "hasOwnProperty" = None →
  "hasOwnProperty" ∉ region_keys valid →
  r ∉ region_keys valid → crimeCounts !! r = Some n →
  ∃ counts,
    processCrimeCounts_from valid crimes crimeCounts = Some counts ∧
    counts !! r = Some (n + length (List.filter (labelled r) crimes)).
Proof.
  intros Hown Hkey Hr Hn.
  destruct (processCrimeCounts_from valid crimes crimeCounts) as [m|] eqn:H.
  - exists m. split; [done|].
    rewrite (processCrimeCounts_from_lookup _ _ _ _ r H), init_counts_lookup.
    rewrite bool_decide_eq_false_2 by tauto. by rewrite Hn.
  - apply processCrimeCounts_from_None in H as [[[? Hx]|Hx] _]; [congruence|done].
Qed.

Lemma counts_stale_entry_kept_witness :
  ({[ "Elsewhere" := 4 ]} : gmap string nat) !! "hasOwnProperty" = None ∧
  ("hasOwnProperty" ∉ region_keys (validNeighborhoods sample_neighborhoods)) ∧
  ("Elsewhere" ∉ region_keys (validNeighborhoods sample_neighborhoods)) ∧
  ({[ "Elsewhere" := 4 ]} : gmap string nat) !! "Elsewhere" = Some 4 ∧
  ∃ counts,
    processCrimeCounts_from (validNeighborhoods sample_neighborhoods)
      sample_crimes {[ "Elsewhere" := 4 ]} = Some counts ∧
    counts !! "Elsewhere" =
      Some (4 + length (List.filter (labelled "Elsewhere") sample_crimes)).
Proof.
  assert ("hasOwnProperty" ∉ region_keys (validNeighborhoods sample_neighborhoods))
    as Hk.
  { rewrite list_elem_of_In. vm_compute. intuition discriminate. }
  assert ("Elsewhere" ∉ region_keys (validNeighborhoods sample_neighborhoods))
    as Hr.
  { rewrite list_elem_of_In. vm_compute. intuition discriminate. }
  split; [reflexivity|]. split; [done|]. split; [done|]. split; [reflexivity|].
  exact (counts_stale_entry_kept (validNeighborhoods sample_neighborhoods)
           sample_crimes {[ "Elsewhere" := 4 ]} "Elsewhere" 4 eq_refl Hk Hr
           eq_refl).
Defined.


(** When [processCrimeCounts] completes, the mapping has an entry exactly
    for the keys of the valid neighbourhoods other than [__proto__]; the
    entry of a region is the number of crime records labelled with it, so it
    is 0 for a region without records.  Records with a falsy label or with
    the label of no valid region change no entry. *)
Theorem counts_entries_of_regions (neighborhoods crimes : list Feature)
    (counts : gmap string nat) (r : string) :
  processCrimeCounts (validNeighborhoods neighborhoods) crimes = Some counts →
  counts !! r =
    if bool_decide (r ∈ region_keys (validNeighborhoods neighborhoods) ∧
                    r ≠ "__proto__")
    then Some (length (List.filter (labelled r) crimes))
    else None.
Proof. apply processCrimeCounts_lookup. Qed.

Lemma counts_entries_of_regions_witness :
  ∃ counts,
    processCrimeCounts (validNeighborhoods sample_neighborhoods) sample_crimes =
      Some counts ∧
    counts !! "Uptown" = Some 0 ∧
    counts !! "Uptown" =
      if bool_decide
           ("Uptown" ∈ region_keys (validNeighborhoods sample_neighborhoods) ∧
            "Uptown" ≠ "__proto__")
      then Some (length (List.filter (labelled "Uptown") sample_crimes))
      else None.
Proof.
  eexists. split; [reflexivity|]. split; [reflexivity|].
  apply (counts_entries_of_regions sample_neighborhoods sample_crimes).
  reflexivity.
Defined.

(** When [processCrimeCounts] completes and no valid neighbourhood is named
    [__proto__], the counts of the mapping, added up, plus the number of
    crime records that are not assigned to a valid region, give the number
    of crime records. *)
Theorem counts_total_of_regions (neighborhoods crimes : list Feature)
    (counts : gmap string nat) :
  processCrimeCounts (validNeighborhoods neighborhoods) crimes = Some counts →
  "__proto__" ∉ region_keys (validNeighborhoods neighborhoods) →
  total_count counts +
  length (List.filter
    (λ crime, negb (assigned (validNeighborhoods neighborhoods) crime)) crimes) =
  length crimes.
Proof. apply processCrimeCounts_total. Qed.

Lemma counts_total_of_regions_witness :
  ∃ counts,
    processCrimeCounts (validNeighborhoods sample_neighborhoods) sample_crimes =
      Some counts ∧
    ("__proto__" ∉ region_keys (validNeighborhoods sample_neighborhoods)) ∧
    total_count counts = 2 ∧
    total_count counts +
    length (List.filter
      (λ crime, negb (assigned (validNeighborhoods sample_neighborhoods) crime))
      sample_crimes) =
    length sample_crimes.
Proof.
  assert ("__proto__" ∉ region_keys (validNeighborhoods sample_neighborhoods))
    as Hp.
  { rewrite list_elem_of_In. vm_compute. intuition discriminate. }
  eexists. split; [reflexivity|]. split; [done|]. split; [reflexivity|].
  exact (counts_total_of_regions sample_neighborhoods sample_crimes _ eq_refl Hp).
Defined.

(** ** The greatest count *)

Lemma greatest_count_insert (crimeCounts : gmap string nat) (r : string) (n : nat) :
  crimeCounts !! r = None →
  greatest_count (<[r:=n]> crimeCounts) =
    Some (from_option (Nat.max n) n (greatest_count crimeCounts)).
Proof.
  intros Hr. unfold greatest_count.
  rewrite map_fold_insert_L; [done| |done].
  intros j1 j2 z1 z2 y _ _ _. destruct y; simpl; f_equal; lia.
Qed.

Lemma greatest_count_spec (crimeCounts : gmap string nat) :
  match greatest_count crimeCounts with
  | None => crimeCounts = ∅
  | Some g =>
      (∀ r n, crimeCounts !! r = Some n → n ≤ g) ∧
      ∃ r, crimeCounts !! r = Some g
  end.
Proof.
  induction crimeCounts as [|r n m Hr IH] using map_ind.
  - unfold greatest_count. by rewrite map_fold_empty.
  - rewrite greatest_count_insert by done.
    destruct (greatest_count m) as [g|]; simpl.
    + destruct IH as [Hle (r' & Hr')]. split.
      * intros r0 n0. destruct (decide (r0 = r)) as [->|Hne].
        -- rewrite lookup_insert_eq. intros [= <-]. lia.
        -- rewrite lookup_insert_ne by done. intros H0.
           apply Hle in H0. lia.
      * destruct (Nat.max_spec n g) as [[_ ->]|[_ ->]].
        -- exists r'. rewrite lookup_insert_ne; [done|]. congruence.
        -- exists r. apply lookup_insert_eq.
    + subst m. split.
      * intros r0 n0. destruct (decide (r0 = r)) as [->|Hne].
        -- rewrite lookup_insert_eq. by intros [= <-].
        -- rewrite lookup_insert_ne by done. by rewrite lookup_empty.
      * exists r. apply lookup_insert_eq.
Qed.

Lemma maxCrimeCount_bound (crimeCounts : gmap string nat) (r : string) (n : nat) :
  crimeCounts !! r = Some n → n ≤ maxCrimeCount crimeCounts.
Proof.
  unfold maxCrimeCount. pose proof (greatest_count_spec crimeCounts) as Hspec.
  intros Hn. destruct (greatest_count crimeCounts) as [[|g]|].
  - destruct Hspec as [Hle _]. apply Hle in Hn. lia.
  - destruct Hspec as [Hle _]. by apply Hle in Hn.
  - subst crimeCounts. by rewrite lookup_empty in Hn.
Qed.

(** [maxCrimeCount] is at least 1 and at least every count; it is the count
    of some region, unless every count is 0 or there is no region, and then
    it is 1. *)
Theorem maxCrimeCount_greatest (crimeCounts : gmap string nat) :
  1 ≤ maxCrimeCount crimeCounts ∧
  (∀ r n, crimeCounts !! r = Some n → n ≤ maxCrimeCount crimeCounts) ∧
  ((∃ r, crimeCounts !! r = Some (maxCrimeCount crimeCounts)) ∨
   (maxCrimeCount crimeCounts = 1 ∧ ∀ r n, crimeCounts !! r = Some n → n = 0)).
Proof.
  unfold maxCrimeCount. pose proof (greatest_count_spec crimeCounts) as Hspec.
  destruct (greatest_count crimeCounts) as [[|g]|].
  - destruct Hspec as [Hle _]. split; [lia|]. split.
    + intros r n Hn. apply Hle in Hn. lia.
    + right. split; [done|]. intros r n Hn. apply Hle in Hn. lia.
  - destruct Hspec as [Hle Hex]. split; [lia|]. split; [done|]. by left.
  - subst crimeCounts. split; [lia|]. split.
    + intros r n. by rewrite lookup_empty.
    + right. split; [done|]. intros r n. by rewrite lookup_empty.
Qed.

(** ** The neighbourhood layer and the pipeline *)

Lemma js_get_valid_key (valid crimes : list Feature)
    (counts : gmap string nat) (r : string) :
  processCrimeCounts valid crimes = Some counts →
  r ∈ region_keys valid →
  js_get counts r =
    if String.eqb r "__proto__" then Inherited "__proto__"
    else OwnNumber (length (List.filter (labelled r) crimes)).
Proof.
  intros H Hr. unfold js_get. rewrite (processCrimeCounts_lookup _ _ _ r H).
  destruct (String.eqb_spec r "__proto__") as [->|Hne].
  - rewrite bool_decide_eq_false_2 by tauto. reflexivity.
  - by rewrite bool_decide_eq_true_2.
Qed.

(** On the counts of a call that completed, a valid neighbourhood is filled
    with the empty colour when no crime record carries its label, and
    otherwise with the colour the scale gives to the number of records that
    carry it; the neighbourhood named [__proto__], which has no entry, is
    filled with the empty colour whatever the records. *)
Theorem fill_color_of_valid_neighborhood {Color : Type}
    (colorScale : nat → Color) (emptyColor : Color)
    (neighborhoods crimes : list Feature) (counts : gmap string nat)
    (d : Feature) :
  processCrimeCounts (validNeighborhoods neighborhoods) crimes = Some counts →
  d ∈ validNeighborhoods neighborhoods →
  getFillColor colorScale emptyColor counts d =
    if String.eqb (toKey (PRI_NEIGH d)) "__proto__" then emptyColor
    else match length (List.filter (labelled (toKey (PRI_NEIGH d))) crimes) with
         | 0 => emptyColor
         | S n => colorScale (S n)
         end.
Proof.
  intros H Hd. apply valid_key_in_region_keys in Hd as (_ & _ & Hkey).
  unfold getFillColor. cbn zeta.
  rewrite (js_get_valid_key _ _ _ _ H Hkey).
  destruct (String.eqb _ "__proto__"); [done|].
  by destruct (length _).
Qed.

Lemma fill_color_of_valid_neighborhood_witness :
  ∃ counts,
    processCrimeCounts (validNeighborhoods sample_neighborhoods) sample_crimes =
      Some counts ∧
    {| PRI_NEIGH := JStr "Loop"; geometry := [] |}
      ∈ validNeighborhoods sample_neighborhoods ∧
    getFillColor (λ n, pretty n) "#f8f9fa" counts
      {| PRI_NEIGH := JStr "Loop"; geometry := [] |} = "2" ∧
    getFillColor (λ n, pretty n) "#f8f9fa" counts
      {| PRI_NEIGH := JStr "Loop"; geometry := [] |} =
      if String.eqb (toKey (JStr "Loop")) "__proto__" then "#f8f9fa"
      else match length (List.filter (labelled (toKey (JStr "Loop")))
                           sample_crimes) with
           | 0 => "#f8f9fa"
           | S n => pretty (S n)
           end.
Proof.
  assert ({| PRI_NEIGH := JStr "Loop"; geometry := [] |}
            ∈ validNeighborhoods sample_neighborhoods) as Hd
    by (apply list_elem_of_In; simpl; tauto).
  eexists. split; [reflexivity|]. split; [done|]. split; [by vm_compute|].
  exact (fill_color_of_valid_neighborhood (λ n, pretty n) "#f8f9fa"
           sample_neighborhoods sample_crimes _ _ eq_refl Hd).
Defined.

(** On the counts of a call that completed, the tooltip of a valid
    neighbourhood shows its own name, never ["N/A"] in its place, and the
    number of crime records that carry its label; for the neighbourhood
    named [__proto__] it shows the text of [Object.prototype] in place of the
    number. *)
Theorem tooltip_of_valid_neighborhood (native_source : string → string)
    (neighborhoods crimes : list Feature) (counts : gmap string nat)
    (d : Feature) :
  processCrimeCounts (validNeighborhoods neighborhoods) crimes = Some counts →
  d ∈ validNeighborhoods neighborhoods →
  tooltip_html native_source counts d =
    "<strong>" +:+ toKey (PRI_NEIGH d) +:+ "</strong><br/>Crimes: " +:+
    (if String.eqb (toKey (PRI_NEIGH d)) "__proto__" then "[object Object]"
     else pretty (length (List.filter (labelled (toKey (PRI_NEIGH d))) crimes))).
Proof.
  intros H Hd. apply valid_key_in_region_keys in Hd as (Ht & _ & Hkey).
  unfold tooltip_html. rewrite Ht. cbn zeta.
  rewrite (js_get_valid_key _ _ _ _ H Hkey).
  by destruct (String.eqb _ "__proto__").
Qed.

Lemma tooltip_of_valid_neighborhood_witness :
  ∃ counts,
    processCrimeCounts (validNeighborhoods sample_neighborhoods) sample_crimes =
      Some counts ∧
    {| PRI_NEIGH := JStr "Loop"; geometry := [] |}
      ∈ validNeighborhoods sample_neighborhoods ∧
    tooltip_html (λ member, "function " +:+ member +:+ "() { [native code] }")
      counts {| PRI_NEIGH := JStr "Loop"; geometry := [] |} =
      "<strong>Loop</strong><br/>Crimes: 2" ∧
    tooltip_html (λ member, "function " +:+ member +:+ "() { [native code] }")
      counts {| PRI_NEIGH := JStr "Loop"; geometry := [] |} =
      "<strong>" +:+ toKey (JStr "Loop") +:+ "</strong><br/>Crimes: " +:+
      (if String.eqb (toKey (JStr "Loop")) "__proto__" then "[object Object]"
       else pretty (length (List.filter (labelled (toKey (JStr "Loop")))
                              sample_crimes))).
Proof.
  assert ({| PRI_NEIGH := JStr "Loop"; geometry := [] |}
            ∈ validNeighborhoods sample_neighborhoods) as Hd
    by (apply list_elem_of_In; simpl; tauto).
  eexists. split; [reflexivity|]. split; [done|]. split; [by vm_compute|].
  exact (tooltip_of_valid_neighborhood _ sample_neighborhoods sample_crimes _ _
           eq_refl Hd).
Defined.

Lemma processData_Some (geoPathCentroid : list Feature → Feature → Position)
    (K : nat) (neighborhoods crimes : list Feature) (data : Data) :
  processData geoPathCentroid K neighborhoods crimes = Some data →
  processCrimeCounts (validNeighborhoods neighborhoods) crimes =
    Some (data_crimeCounts data) ∧
  data_maxCrimeCount data = maxCrimeCount (data_crimeCounts data) ∧
  data_centroids data =
    calculateCentroids (geoPathCentroid neighborhoods)
      (validNeighborhoods neighborhoods) ∧
  data_knnLinks data = calculateKNN K (data_centroids data).
Proof.
  unfold processData. cbn zeta.
  destruct (processCrimeCounts _ _) as [m|]; [|done].
  by intros [= <-].
Qed.

Lemma loadData_Rendered (geoPathCentroid : list Feature → Feature → Position)
    (K : nat) (neighborhoodData crimeData : option FeatureCollection)
    (data : Data) :
  loadData geoPathCentroid K neighborhoodData crimeData = Rendered data →
  ∃ neighborhoods crimes,
    neighborhoodData ≫= features = Some neighborhoods ∧
    crimeData ≫= features = Some crimes ∧
    processData geoPathCentroid K neighborhoods crimes = Some data.
Proof.
  unfold loadData, validateData.
  destruct (neighborhoodData ≫= features) as [nf|]; [|done].
  destruct (crimeData ≫= features) as [cf|]; [|done]. simpl.
  destruct (processData _ _ nf cf) as [data'|] eqn:Hp; [|done].
  intros [= <-]. by exists nf, cf.
Qed.

Lemma processData_centroid (geoPathCentroid : list Feature → Feature → Position)
    (K : nat) (neighborhoods crimes : list Feature) (data : Data) (d : Centroid) :
  processData geoPathCentroid K neighborhoods crimes = Some data →
  d ∈ data_centroids data →
  name d = PRI_NEIGH (feature d) ∧
  feature d ∈ validNeighborhoods neighborhoods.
Proof.
  intros (_ & _ & -> & _)%processData_Some.
  unfold calculateCentroids. intros Hd.
  apply list_elem_of_In, filter_In in Hd as [Hd _].
  apply in_map_iff in Hd as (f & <- & Hf). simpl.
  split; [done|]. by apply list_elem_of_In.
Qed.

(** When [loadData] renders, every centroid that is drawn belongs to a named
    neighbourhood of the neighbourhood document.  Unless that name is
    [__proto__], [crimeCounts] has the entry of the neighbourhood: the number
    of crime records with its label, which is no more than [maxCrimeCount];
    for the name [__proto__] there is no entry. *)
Theorem rendered_centroids_have_counts
    (geoPathCentroid : list Feature → Feature → Position) (K : nat)
    (neighborhoodData crimeData : option FeatureCollection) (data : Data)
    (d : Centroid) :
  loadData geoPathCentroid K neighborhoodData crimeData = Rendered data →
  d ∈ data_centroids data →
  ∃ neighborhoods crimes,
    neighborhoodData ≫= features = Some neighborhoods ∧
    crimeData ≫= features = Some crimes ∧
    feature d ∈ neighborhoods ∧
    truthy (name d) = true ∧
    data_crimeCounts data !! toKey (name d) =
      (if String.eqb (toKey (name d)) "__proto__" then None
       else Some (length (List.filter (labelled (toKey (name d))) crimes))) ∧
    (toKey (name d) ≠ "__proto__" →
     length (List.filter (labelled (toKey (name d))) crimes) ≤
       data_maxCrimeCount data).
Proof.
  intros Hload Hd.
  apply loadData_Rendered in Hload as (nf & cf & Hn & Hc & Hdata).
  exists nf, cf. split; [done|]. split; [done|].
  destruct (processData_centroid _ _ _ _ _ _ Hdata Hd) as [Hname Hvalid].
  rewrite Hname.
  apply valid_key_in_region_keys in Hvalid as (Ht & Hin & Hkey).
  split; [done|]. split; [done|].
  apply processData_Some in Hdata as (Hcounts & Hmax & _).
  pose proof (processCrimeCounts_lookup _ _ _ (toKey (PRI_NEIGH (feature d)))
                Hcounts) as Hcount.
  destruct (String.eqb_spec (toKey (PRI_NEIGH (feature d))) "__proto__")
    as [Heq|Hne].
  - rewrite bool_decide_eq_false_2 in Hcount by tauto. done.
  - rewrite bool_decide_eq_true_2 in Hcount by done.
    split; [done|]. intros _. rewrite Hmax.
    by apply (maxCrimeCount_bound _ _ _ Hcount).
Qed.

Lemma rendered_centroids_have_counts_witness :
  ∃ data,
    let neighborhoodData := Some {| features := Some sample_neighborhoods |} in
    let crimeData := Some {| features := Some sample_crimes |} in
    let d := make_centroid (centroid_at_origin sample_neighborhoods)
               {| PRI_NEIGH := JStr "Loop"; geometry := [] |} in
    loadData centroid_at_origin 5 neighborhoodData crimeData = Rendered data ∧
    d ∈ data_centroids data ∧
    data_crimeCounts data !! "Loop" = Some 2 ∧
    ∃ neighborhoods crimes,
      neighborhoodData ≫= features = Some neighborhoods ∧
      crimeData ≫= features = Some crimes ∧
      feature d ∈ neighborhoods ∧
      truthy (name d) = true ∧
      data_crimeCounts data !! toKey (name d) =
        (if String.eqb (toKey (name d)) "__proto__" then None
         else Some (length (List.filter (labelled (toKey (name d))) crimes))) ∧
      (toKey (name d) ≠ "__proto__" →
       length (List.filter (labelled (toKey (name d))) crimes) ≤
         data_maxCrimeCount data).
Proof.
  eexists. cbv zeta.
  split; [reflexivity|].
  assert (make_centroid (centroid_at_origin sample_neighborhoods)
            {| PRI_NEIGH := JStr "Loop"; geometry := [] |}
          ∈ calculateCentroids (centroid_at_origin sample_neighborhoods)
              (validNeighborhoods sample_neighborhoods))
    as Hd by (apply list_elem_of_In; vm_compute; tauto).
  split; [exact Hd|]. split; [by vm_compute|].
  exact (rendered_centroids_have_counts centroid_at_origin 5
           (Some {| features := Some sample_neighborhoods |})
           (Some {| features := Some sample_crimes |}) _ _ eq_refl Hd).
Defined.


(** With no named neighbourhood, [processData] leaves an empty mapping, the
    greatest count 1, no centroid and no link, whatever the crime records. *)
Theorem processData_no_valid_neighborhood
    (geoPathCentroid : list Feature → Feature → Position) (K : nat)
    (neighborhoods crimes : list Feature) :
  validNeighborhoods neighborhoods = [] →
  processData geoPathCentroid K neighborhoods crimes =
    Some {| data_crimeCounts := ∅; data_maxCrimeCount := 1;
            data_centroids := []; data_knnLinks := [] |}.
Proof.
  intros Hvalid. unfold processData. rewrite Hvalid. cbn zeta.
  assert (processCrimeCounts [] crimes = Some ∅) as ->; [|reflexivity].
  destruct (processCrimeCounts [] crimes) as [m|] eqn:H.
  - f_equal. apply map_eq. intros r.
    rewrite (processCrimeCounts_lookup _ _ _ r H), lookup_empty.
    rewrite bool_decide_eq_false_2; [done|]. intros [Hin _].
    by apply elem_of_nil in Hin.
  - apply processCrimeCounts_None in H as [Hin _]. by apply elem_of_nil in Hin.
Qed.

Lemma processData_no_valid_neighborhood_witness :
  validNeighborhoods [ {| PRI_NEIGH := JStr ""; geometry := [] |};
                       {| PRI_NEIGH := JNull; geometry := [] |} ] = [] ∧
  processData centroid_at_origin 5
    [ {| PRI_NEIGH := JStr ""; geometry := [] |};
      {| PRI_NEIGH := JNull; geometry := [] |} ] sample_crimes =
    Some {| data_crimeCounts := ∅; data_maxCrimeCount := 1;
            data_centroids := []; data_knnLinks := [] |}.
Proof.
  split; [reflexivity|].
  apply (processData_no_valid_neighborhood centroid_at_origin 5
           [ {| PRI_NEIGH := JStr ""; geometry := [] |};
             {| PRI_NEIGH := JNull; geometry := [] |} ] sample_crimes).
  reflexivity.
Defined.

Lemma calculateCentroids_not_nan (pathCentroid : Feature → Position)
    (valid : list Feature) (d : Centroid) :
  d ∈ calculateCentroids pathCentroid valid →
  isNaN (coords d).1 = false ∧ isNaN (coords d).2 = false.
Proof.
  unfold calculateCentroids. intros Hd.
  apply list_elem_of_In, filter_In in Hd as [_ Hkept].
  unfold centroid_kept in Hkept.
  by rewrite andb_true_iff, !negb_true_iff in Hkept.
Qed.

(** Every link of [processData] is drawn as a line between two centroids of
    the centroid array, and no coordinate of the line is [NaN]. *)
Theorem link_lines_drawn_without_nan
    (geoPathCentroid : list Feature → Feature → Position) (K : nat)
    (neighborhoods crimes : list Feature) (data : Data) (link : Link) :
  processData geoPathCentroid K neighborhoods crimes = Some data →
  link ∈ data_knnLinks data →
  ∃ p q,
    link_line (data_centroids data) link = Some (p, q) ∧
    isNaN p.1 = false ∧ isNaN p.2 = false ∧
    isNaN q.1 = false ∧ isNaN q.2 = false.
Proof.
  intros (_ & _ & Hcs & ->)%processData_Some. rewrite Hcs.
  set (cs := calculateCentroids _ _). intros Hl.
  assert (link_pair link ∈ link_pair <$> calculateKNN K cs) as Hp
    by (apply list_elem_of_fmap; eauto).
  apply calculateKNN_pairs in Hp as (i & c & e & Hi & He & Heq).
  apply lookup_lt_Some in Hi. apply selected_index in He.
  apply upair_eq in Heq.
  destruct (lookup_lt_is_Some_2 cs (source link)) as [s Hs]; [lia|].
  destruct (lookup_lt_is_Some_2 cs (target link)) as [t Ht]; [lia|].
  exists (coords s), (coords t). unfold link_line. rewrite Hs, Ht. simpl.
  split; [done|].
  apply list_elem_of_lookup_2 in Hs, Ht.
  apply calculateCentroids_not_nan in Hs as [? ?], Ht as [? ?]. done.
Qed.

Lemma link_lines_drawn_without_nan_witness :
  ∃ data,
    processData centroid_at_origin 5 sample_neighborhoods sample_crimes =
      Some data ∧
    mkLink 0 1 ∈ data_knnLinks data ∧
    ∃ p q,
      link_line (data_centroids data) (mkLink 0 1) = Some (p, q) ∧
      isNaN p.1 = false ∧ isNaN p.2 = false ∧
      isNaN q.1 = false ∧ isNaN q.2 = false.
Proof.
  eexists. split; [reflexivity|].
  assert (mkLink 0 1 ∈ calculateKNN 5
            (calculateCentroids (centroid_at_origin sample_neighborhoods)
               (validNeighborhoods sample_neighborhoods)))
    as Hl by (apply list_elem_of_In; vm_compute; tauto).
  split; [exact Hl|].
  exact (link_lines_drawn_without_nan centroid_at_origin 5 sample_neighborhoods
           sample_crimes _ (mkLink 0 1) eq_refl Hl).
Defined.
